(** * Wavelet audio de-noising: the block pipeline of [denoise.py]

    The development follows [src/denoise.py]:
    - [BlockSize]     the block length handed to [soundfile.blocks]
                      (binary64 arithmetic, Python's [int] truncation);
    - [Numpy], [mad]  the median and the median absolute deviation;
    - [Pywt]          the Daubechies-4 filter bank in mode ['per'], the
                      multilevel transforms, their round trip and the soft
                      threshold;
    - [AudioDeNoise]  the VisuShrink threshold, the body of the [deNoise]
                      loop and the loop over the blocks of a mono input;
    - [MultiChannel]  the same loop on an input with several channels;
    - [Profile]       the two noise-profile entry points over a file store;
    - [Engine]        the same entry points with the object they mutate;
    - [Script]        the noise-sample choice of [audio_denoiser.py];
    - [AudioDemo]     [mix_noise] of [audio_demo.py];
    - [WhiteNoise]    the scaling step of [white_noise.py].

    numpy, pywt and soundfile are libraries the program calls; what is
    modelled of them is their behaviour at the calls [denoise.py] makes.
    A sample is a real number or [nan]; the block length is computed in
    binary64, as the program does. *)

From stdpp Require Import gmap strings.
From Stdlib Require Import ZArith List Lia Lra Bool Reals.
From Stdlib Require Import Floats.
Import ListNotations.

(** ** Outcomes and numbers

    A Python computation returns or raises.  A binary64 value of the signal
    path is a real number or [nan]: the rounding of binary64 arithmetic on
    samples is outside this development, but the places where numpy yields
    [nan] without raising (the median of no data, [log] of 0, 0 divided by
    0) are kept, and [nan] spreads through sums and products as it does in
    binary64. *)

(** What the audio library raises on its own ([soundfile.LibsndfileError]
    and the like), carrying its diagnostic. *)
Inductive libexc : Type :=
| SoundFileError (diagnostic : string).

(** The exceptions of this program: the two classes [denoise.py] raises
    itself ([RuntimeError] keeps the exception it was raised [from] as its
    cause), the built-in errors of pywt and of Python's arithmetic, and a
    library exception passed through. *)
Inductive pyexc : Type :=
| ValueError
| OverflowError
| ZeroDivisionError
| FileNotFoundError (msg : string)
| RuntimeError (msg : string) (cause : libexc)
| Uncaught (e : libexc).

Inductive outcome (A : Type) : Type :=
| Done (a : A)
| Raise (e : pyexc).
Arguments Done {A} a.
Arguments Raise {A} e.

Definition bind {A B : Type} (m : outcome A) (k : A -> outcome B) : outcome B :=
  match m with
  | Done a => k a
  | Raise e => Raise e
  end.

Inductive num : Type :=
| Fin (r : R)
| NaN.

Definition nadd (x y : num) : num :=
  match x, y with
  | Fin a, Fin b => Fin (a + b)
  | _, _ => NaN
  end.

Definition nmul (x y : num) : num :=
  match x, y with
  | Fin a, Fin b => Fin (a * b)
  | _, _ => NaN
  end.

Notation "'let!' x ':=' m 'in' k" := (bind m (fun x => k))
  (at level 10, x name, m at level 100, k at level 200).

(** ** Block size: [int(rate * info.duration * 0.10)] *)

Module BlockSize.

(** [soundfile.info]: the header fields that [deNoise] reads.  [duration] is
    the property soundfile derives as [float(frames) / samplerate]. *)
Record info := { frames : Z; samplerate : Z; channels : Z }.

(** An integer as a binary64 number (round to nearest even). *)
Definition of_Z (z : Z) : float :=
  SF2Prim (binary_normalize prec emax z 0 false).

Definition duration (i : info) : outcome float :=
  if (samplerate i =? 0)%Z then Raise ZeroDivisionError
  else Done (of_Z (frames i) / of_Z (samplerate i))%float.

(** Python's [int] on a float: truncation toward zero; nan and the
    infinities are refused. *)
Definition int_of_float (f : float) : outcome Z :=
  match Prim2SF f with
  | S754_zero _ => Done 0%Z
  | S754_finite s m e =>
      let mag := (if (0 <=? e)%Z then Z.shiftl (Z.pos m) e
                  else Z.shiftr (Z.pos m) (- e))%Z in
      Done (if s then (- mag)%Z else mag)
  | S754_infinity _ => Raise OverflowError
  | S754_nan => Raise ValueError
  end.

(** The literal [0.10]. *)
Definition tenth : float := 0x1.999999999999ap-4%float.

(** The second argument of [soundfile.blocks] in [deNoise]. *)
Definition blockSize (rate : Z) (dur : float) : outcome Z :=
  int_of_float (of_Z rate * dur * tenth)%float.

Definition blockSize_of (i : info) : outcome Z :=
  let! dur := duration i in
  blockSize (samplerate i) dur.

(** Python's [round] on a float: nearest integer, ties to even. *)
Definition round_of_float (f : float) : outcome Z :=
  let! t := int_of_float f in
  let frac := (abs (f - of_Z t))%float in
  let away := if (f <? 0)%float then (t - 1)%Z else (t + 1)%Z in
  if (frac <? 0.5)%float then Done t
  else if (0.5 <? frac)%float then Done away
  else Done (if Z.even t then t else away).

(** The block size as the specification words it:
    [round(rate * duration * 0.10)]. *)
Definition blockSize_rounded (rate : Z) (dur : float) : outcome Z :=
  round_of_float (of_Z rate * dur * tenth)%float.

Definition blockSize_rounded_of (i : info) : outcome Z :=
  let! dur := duration i in
  blockSize_rounded (samplerate i) dur.

End BlockSize.


(** ** numpy: [median], [abs], [compressed] *)

Module Numpy.
Open Scope R_scope.

Definition Rleb (x y : R) : bool := if Rle_dec x y then true else false.

Fixpoint insert_sorted (x : R) (l : list R) : list R :=
  match l with
  | [] => [x]
  | y :: l' => if Rleb x y then x :: y :: l' else y :: insert_sorted x l'
  end.

Definition sort (l : list R) : list R := fold_right insert_sorted [] l.

(** [np.median]: the middle of the sorted data, the mean of the two middle
    values for an even count, and [nan] (with a warning, no exception) for
    empty data. *)
Definition median (arr : list R) : num :=
  let s := sort arr in
  let n := length s in
  match n with
  | O => NaN
  | _ => if Nat.odd n then Fin (nth (n / 2) s 0)
         else Fin ((nth (n / 2 - 1) s 0 + nth (n / 2) s 0) / 2)
  end.

(** [np.ma.array(arr).compressed()]: the unmasked entries; an array built
    from plain data has no masked entry. *)
Definition compressed (arr : list R) : list R := arr.

End Numpy.

(** ** [mad] *)

Definition mad (arr : list R) : num :=
  let arr := Numpy.compressed arr in
  match Numpy.median arr with
  | Fin med => Numpy.median (map (fun x => Rabs (x - med)) arr)
  | NaN => NaN
  end.

(** ** pywt: the Daubechies-4 filter bank in mode ['per'], [wavedec],
    [waverec] and [threshold] *)

Module Pywt.
Open Scope R_scope.

Record wavelet : Type := {
  dec_lo : list R;
  dec_hi : list R;
  rec_lo : list R;
  rec_hi : list R
}.

(** The four filters of [pywt.Wavelet('db4')]: the orthonormal Daubechies
    filter with four vanishing moments, its taps rounded to binary64 and
    written with the digits Python prints for them.  [dec_lo] is [rec_lo]
    reversed, [rec_hi] is [dec_lo] with the sign of every second tap
    changed, [dec_hi] is [rec_hi] reversed. *)
Definition db4 : wavelet := {|
  dec_lo := [ -0.010597401785069032; 0.0328830116668852;
              0.030841381835560764; -0.18703481171909309;
              -0.027983769416859854; 0.6308807679298589;
              0.7148465705529157; 0.2303778133088965 ];
  dec_hi := [ -0.2303778133088965; 0.7148465705529157;
              -0.6308807679298589; -0.027983769416859854;
              0.18703481171909309; 0.030841381835560764;
              -0.0328830116668852; -0.010597401785069032 ];
  rec_lo := [ 0.2303778133088965; 0.7148465705529157;
              0.6308807679298589; -0.027983769416859854;
              -0.18703481171909309; 0.030841381835560764;
              0.0328830116668852; -0.010597401785069032 ];
  rec_hi := [ -0.010597401785069032; -0.0328830116668852;
              0.030841381835560764; 0.18703481171909309;
              -0.027983769416859854; -0.6308807679298589;
              0.7148465705529157; -0.2303778133088965 ]
|}.

Definition Rsum (l : list R) : R := fold_right Rplus 0 l.

Definition nsum (l : list num) : num := fold_right nadd (Fin 0) l.

(** [pywt.dwt_coeff_len] for mode ['per']: [ceil(data_len / 2)]. *)
Definition dwt_coeff_len (data_len : nat) : nat := (data_len + 1) / 2.

(** Mode ['per']: data of odd length is first extended by a copy of its last
    sample, then read circularly. *)
Definition per_extend (x : list R) : list R :=
  if Nat.odd (length x) then x ++ [last x 0] else x.

Definition per_index (n : nat) (i : Z) : nat :=
  Z.to_nat (i mod Z.of_nat n).

(** One output of the down-sampling convolution: [sum_j f[j] * x[c - j]] on
    the circular data. *)
Definition per_dot (f x : list R) (c : Z) : R :=
  Rsum (map (fun j => nth j f 0 * nth (per_index (length x) (c - Z.of_nat j)) x 0)
            (seq 0 (length f))).

(** The first output sits at [i = F/2], the following ones two samples on. *)
Definition per_downsample (f x : list R) : list R :=
  let xe := per_extend x in
  map (fun k => per_dot f xe (2 * Z.of_nat k + Z.of_nat (length f / 2)))
      (seq 0 (length xe / 2)).

(** [pywt.dwt(data, wavelet, 'per')]; empty data is refused. *)
Definition dwt (w : wavelet) (data : list R) : outcome (list R * list R) :=
  match data with
  | [] => Raise ValueError
  | _ => Done (per_downsample (dec_lo w) data, per_downsample (dec_hi w) data)
  end.

(** One sample of the up-sampling convolution: every product
    [rec[i] * c[k]] lands on the circular position [2k + i - (F/2 - 1)]. *)
Definition per_upsample_at (w : wavelet) (a d : list num) (m : nat) : num :=
  let n := (2 * length a)%nat in
  let F := length (rec_lo w) in
  nsum (map (fun k =>
    nsum (map (fun i =>
      if Nat.eqb (per_index n (2 * Z.of_nat k + Z.of_nat i - Z.of_nat (F / 2) + 1)) m
      then nadd (nmul (Fin (nth i (rec_lo w) 0)) (nth k a (Fin 0)))
                (nmul (Fin (nth i (rec_hi w) 0)) (nth k d (Fin 0)))
      else Fin 0) (seq 0 F))) (seq 0 (length a))).

(** [pywt.idwt(cA, cD, wavelet, 'per')]: both arrays must have one size; the
    result has twice that size. *)
Definition idwt (w : wavelet) (cA cD : list num) : outcome (list num) :=
  if Nat.eqb (length cA) (length cD)
  then Done (map (per_upsample_at w cA cD) (seq 0 (2 * length cA)))
  else Raise ValueError.



(** [pywt.wavedec]: [level] rounds of [dwt] on the running approximation,
    each detail array appended, then the approximation, then the list is
    reversed: [[cA_n, cD_n, ..., cD_1]].  (A level above the useful maximum
    only draws a warning.) *)
Fixpoint wavedec_loop (w : wavelet) (level : nat) (a : list R)
    (coeffs_list : list (list R)) : outcome (list (list R)) :=
  match level with
  | O => Done (coeffs_list ++ [a])
  | S l =>
      let! ad := dwt w a in
      wavedec_loop w l (fst ad) (coeffs_list ++ [snd ad])
  end.

Definition wavedec (w : wavelet) (data : list R) (level : nat)
    : outcome (list (list R)) :=
  let! coeffs_list := wavedec_loop w level data [] in
  Done (rev coeffs_list).

(** [pywt.waverec]: starting from the approximation, each detail array is
    merged by [idwt]; an approximation one sample longer than the detail
    array is cut to its size first, any other mismatch is refused. *)
Fixpoint waverec_loop (w : wavelet) (a : list num) (ds : list (list num))
    : outcome (list num) :=
  match ds with
  | [] => Done a
  | d :: ds' =>
      let! a' := (if Nat.eqb (length a) (length d + 1)
                  then Done (firstn (length d) a)
                  else if Nat.eqb (length a) (length d) then Done a
                  else Raise ValueError) in
      let! a'' := idwt w a' d in
      waverec_loop w a'' ds'
  end.

Definition waverec (w : wavelet) (coeffs : list (list num))
    : outcome (list num) :=
  match coeffs with
  | [] => Raise ValueError
  | a :: ds => waverec_loop w a ds
  end.

(** [np.sign]. *)
Definition sign (x : R) : R :=
  if Rlt_dec 0 x then 1 else if Rlt_dec x 0 then -1 else 0.

(** [pywt.threshold(data, value, mode='soft')] computes, entry by entry,
    [data * clip(1 - value / |data|, 0)].  At an entry 0 the quotient is
    [+inf] for a positive [value], which the clip turns into the factor 0,
    and [nan] otherwise.  A [nan] [value] makes every entry [nan].  Only the
    mode is validated, never the sign of [value]. *)
Definition soft (value x : R) : num :=
  if Req_dec_T x 0
  then (if Rlt_dec 0 value then Fin 0 else NaN)
  else Fin (x * Rmax (1 - value / Rabs x) 0).

Definition soft_by (value : num) (x : R) : num :=
  match value with
  | Fin v => soft v x
  | NaN => NaN
  end.

Definition threshold_soft (data : list R) (value : num) : outcome (list num) :=
  Done (map (soft_by value) data).

End Pywt.

(** ** [AudioDeNoise.deNoise] *)

Module AudioDeNoise.
Open Scope R_scope.

(** [sigma * np.sqrt(2 * np.log(len(block)))].  For a length of 0 numpy's
    [log] gives [-inf] and [sqrt] gives [nan], with warnings only. *)
Definition universal_threshold (sigma : num) (len : nat) : num :=
  match len with
  | O => NaN
  | _ => nmul sigma (Fin (R_sqrt.sqrt (2 * ln (INR len))))
  end.

Fixpoint threshold_each (thresh : num) (arrays : list (list R))
    : outcome (list (list num)) :=
  match arrays with
  | [] => Done []
  | i :: rest =>
      let! i' := Pywt.threshold_soft i thresh in
      let! rest' := threshold_each thresh rest in
      Done (i' :: rest')
  end.

(** [coefficients[1:] = (pywt.threshold(i, value=thresh, mode='soft')
                         for i in coefficients[1:])] *)
Definition shrink (thresh : num) (coefficients : list (list R))
    : outcome (list (list num)) :=
  match coefficients with
  | [] => Done []
  | c0 :: details =>
      let! details' := threshold_each thresh details in
      Done (map Fin c0 :: details')
  end.

(** The coefficient set handed to [waverec] for one block. *)
Definition shrunk_coefficients (block : list R) : outcome (list (list num)) :=
  let! coefficients := Pywt.wavedec Pywt.db4 block 2 in
  let sigma := mad (last coefficients []) in
  let thresh := universal_threshold sigma (length block) in
  shrink thresh coefficients.

(** The body of the loop: the samples written for one block. *)
Definition process_block (block : list R) : outcome (list num) :=
  let! coefficients := shrunk_coefficients block in
  Pywt.waverec Pywt.db4 coefficients.

(** [soundfile.blocks] keeps yielding [min(blocksize, frames left)] frames
    while frames are left; each block is processed and written before the
    next one is read.  [fuel] bounds the number of iterations. *)
Fixpoint deNoise_loop (fuel : nat) (blocksize : nat) (remaining : list R)
    (written : list num) : option (outcome (list num)) :=
  match remaining with
  | [] => Some (Done written)
  | _ :: _ =>
      match fuel with
      | O => None
      | S fuel' =>
          match process_block (firstn blocksize remaining) with
          | Done clean =>
              deNoise_loop fuel' blocksize (skipn blocksize remaining)
                           (written ++ clean)
          | Raise e => Some (Raise e)
          end
      end
  end.

(** A mono input file: its sample rate and its frames. *)
Definition info_of (rate : Z) (input : list R) : BlockSize.info :=
  {| BlockSize.frames := Z.of_nat (length input);
     BlockSize.samplerate := rate;
     BlockSize.channels := 1 |}.

(** [deNoise]: the content of the output file. *)
Definition deNoise (fuel : nat) (rate : Z) (input : list R)
    : option (outcome (list num)) :=
  match BlockSize.blockSize_of (info_of rate input) with
  | Done bs => deNoise_loop fuel (Z.to_nat bs) input []
  | Raise e => Some (Raise e)
  end.

(** The blocks [soundfile.blocks] yields for a positive block size. *)
Fixpoint blocks_fuel (fuel blocksize : nat) (remaining : list R) : list (list R) :=
  match remaining, fuel with
  | [], _ => []
  | _, O => []
  | _, S fuel' =>
      firstn blocksize remaining
        :: blocks_fuel fuel' blocksize (skipn blocksize remaining)
  end.

Definition blocks (blocksize : nat) (input : list R) : list (list R) :=
  blocks_fuel (length input) blocksize input.

(** The frame counter of that generator: [toread = min(blocksize, frames)],
    then [frames -= toread]. *)
Fixpoint frame_counts (fuel blocksize frames : nat) : list nat :=
  match frames, fuel with
  | O, _ => []
  | _, O => []
  | _, S fuel' =>
      let toread := Nat.min blocksize frames in
      toread :: frame_counts fuel' blocksize (frames - toread)
  end.

(** The blocks of odd length among a list of blocks. *)
Definition odd_blocks (bl : list (list R)) : list (list R) :=
  List.filter (fun b => Nat.odd (length b)) bl.

End AudioDeNoise.

(** ** [AudioDeNoise.deNoise] on a file with several channels

    For a file with more than one channel [soundfile.blocks] yields
    two-dimensional arrays, one row per frame and one column per channel
    (for a mono file the arrays are one-dimensional: the module above).
    [pywt.wavedec], [pywt.threshold] and [pywt.waverec] are called by
    [deNoise] without an [axis] argument, so they work along the last axis:
    every frame is transformed on its own, across its channels.  [mad]
    flattens the finest detail array ([compressed]), and [len(block)] is
    the number of frames of the block. *)

Module MultiChannel.
Open Scope R_scope.

(** A block: its frames, each a row of [channels] samples. *)
Definition frame : Type := list R.

Fixpoint each {A B : Type} (f : A -> outcome B) (l : list A) : outcome (list B) :=
  match l with
  | [] => Done []
  | x :: l' =>
      let! y := f x in
      let! ys := each f l' in
      Done (y :: ys)
  end.

(** [pywt.wavedec(block, 'db4', mode='per', level=2)] on a two-dimensional
    block: for every frame its [[cA2, cD2, cD1]]. *)
Definition wavedec_frames (block : list frame) : outcome (list (list (list R))) :=
  each (fun fr => Pywt.wavedec Pywt.db4 fr 2) block.

(** [coefficients[-1]], flattened row by row as [compressed] does. *)
Definition finest_detail (coefficients : list (list (list R))) : list R :=
  concat (map (fun cs => last cs []) coefficients).

Definition threshold_of (block : list frame)
    (coefficients : list (list (list R))) : num :=
  AudioDeNoise.universal_threshold (mad (finest_detail coefficients)) (length block).

(** The body of the loop: the frames [waverec] returns for one block. *)
Definition process_frames (block : list frame) : outcome (list (list num)) :=
  let! coefficients := wavedec_frames block in
  let thresh := threshold_of block coefficients in
  let! shrunk := each (AudioDeNoise.shrink thresh) coefficients in
  each (Pywt.waverec Pywt.db4) shrunk.

(** [of.write(clean)] on a file opened with [channels=info.channels]:
    soundfile refuses a two-dimensional array whose rows do not have one
    sample per channel. *)
Definition shape_ok (channels : nat) (clean : list (list num)) : bool :=
  forallb (fun fr => Nat.eqb (length fr) channels) clean.

Definition sf_write_frames (channels : nat) (clean : list (list num))
    : outcome (list (list num)) :=
  if shape_ok channels clean then Done clean else Raise ValueError.

Fixpoint deNoise_loop (fuel : nat) (blocksize channels : nat)
    (remaining : list frame) (written : list (list num))
    : option (outcome (list (list num))) :=
  match remaining with
  | [] => Some (Done written)
  | _ :: _ =>
      match fuel with
      | O => None
      | S fuel' =>
          match (let! clean := process_frames (firstn blocksize remaining) in
                 sf_write_frames channels clean) with
          | Done clean =>
              deNoise_loop fuel' blocksize channels (skipn blocksize remaining)
                           (written ++ clean)
          | Raise e => Some (Raise e)
          end
      end
  end.

(** An input file with [channels] channels: its sample rate and its
    frames. *)
Definition info_of (rate : Z) (channels : nat) (input : list frame)
    : BlockSize.info :=
  {| BlockSize.frames := Z.of_nat (length input);
     BlockSize.samplerate := rate;
     BlockSize.channels := Z.of_nat channels |}.

(** [deNoise]: the frames of the output file. *)
Definition deNoise (fuel : nat) (rate : Z) (channels : nat) (input : list frame)
    : option (outcome (list (list num))) :=
  match BlockSize.blockSize_of (info_of rate channels input) with
  | Done bs => deNoise_loop fuel (Z.to_nat bs) channels input []
  | Raise e => Some (Raise e)
  end.

(** Every frame of the input has one sample per channel. *)
Definition well_shaped (channels : nat) (input : list frame) : Prop :=
  Forall (fun fr => length fr = channels) input.

Definition well_shaped_out (channels : nat) (out : list (list num)) : Prop :=
  Forall (fun fr => length fr = channels) out.

End MultiChannel.

(** ** The noise-profile entry points over a file store *)

Module Profile.

(** What a path holds: decodable audio, or bytes the audio library cannot
    decode (with the diagnostic it gives). *)
Inductive file : Type :=
| Audio (data : list R) (rate : Z)
| Corrupt (diagnostic : string).

(** The file store: the files present, and the paths that cannot be opened
    for writing. *)
Record world : Type := {
  files : gmap string file;
  unwritable : gset string
}.

(** [os.path.exists] *)
Definition exists_ (w : world) (path : string) : bool :=
  bool_decide (is_Some (files w !! path)).

(** [soundfile.read] *)
Definition sf_read (w : world) (path : string) : libexc + (list R * Z) :=
  match files w !! path with
  | Some (Audio data rate) => inr (data, rate)
  | Some (Corrupt diagnostic) => inl (SoundFileError diagnostic)
  | None => inl (SoundFileError "System error.")
  end.

(** [soundfile.write]: the file is replaced as a whole, or the store is left
    as it was. *)
Definition sf_write (w : world) (path : string) (data : list R) (rate : Z)
    : libexc + world :=
  if bool_decide (path ∈ unwritable w)
  then inl (SoundFileError "System error.")
  else inr {| files := <[path := Audio data rate]> (files w);
              unwritable := unwritable w |}.

(** [str(exc)] *)
Definition str (e : libexc) : string :=
  match e with SoundFileError diagnostic => diagnostic end.

Definition not_found_msg (noiseFile : string) : string :=
  "Noise sample not found: " +:+ noiseFile.

Definition read_msg (noiseFile : string) (exc : libexc) : string :=
  "Could not read noise sample '" +:+ noiseFile +:+ "': " +:+ str exc.

Definition write_msg (outputFile : string) (exc : libexc) : string :=
  "Could not write predicted noise to '" +:+ outputFile +:+ "': " +:+ str exc.

Section Profiler.

(** [NoiseProfiler(data).getNoiseDataPredicted()], of [lib.noiseProfiler]:
    taken as given. *)
Variable getNoiseDataPredicted : list R -> list R.

(** The store after the call, and how the call ended. *)
Definition generateNoiseProfile (w : world) (noiseFile : string)
    : world * outcome unit :=
  if negb (exists_ w noiseFile)
  then (w, Raise (FileNotFoundError (not_found_msg noiseFile)))
  else
    match sf_read w noiseFile with
    | inl exc => (w, Raise (RuntimeError (read_msg noiseFile exc) exc))
    | inr (data, rate) =>
        let noiseSignal := getNoiseDataPredicted data in
        match sf_write w noiseFile noiseSignal rate with
        | inl exc => (w, Raise (Uncaught exc))
        | inr w' => (w', Done tt)
        end
    end.

Definition generateNoiseProfileTo (w : world) (noiseFile outputFile : string)
    : world * outcome unit :=
  if negb (exists_ w noiseFile)
  then (w, Raise (FileNotFoundError (not_found_msg noiseFile)))
  else
    match sf_read w noiseFile with
    | inl exc => (w, Raise (RuntimeError (read_msg noiseFile exc) exc))
    | inr (data, rate) =>
        let noiseSignal := getNoiseDataPredicted data in
        match sf_write w outputFile noiseSignal rate with
        | inl exc => (w, Raise (RuntimeError (write_msg outputFile exc) exc))
        | inr w' => (w', Done tt)
        end
    end.

End Profiler.

(** Python's class hierarchy: [IOError] is [OSError], of which
    [FileNotFoundError] is a subclass; [RuntimeError], [ValueError] and the
    audio library's errors (subclasses of [RuntimeError]) are not. *)
Definition is_FileNotFoundError (e : pyexc) : bool :=
  match e with FileNotFoundError _ => true | _ => false end.

Definition is_IOError (e : pyexc) : bool :=
  match e with FileNotFoundError _ => true | _ => false end.

Definition is_RuntimeError (e : pyexc) : bool :=
  match e with RuntimeError _ _ | Uncaught _ => true | _ => false end.

(** [exc.__cause__] *)
Definition cause (e : pyexc) : option libexc :=
  match e with RuntimeError _ c => Some c | _ => None end.

(** A small store for examples: a noise sample, a file that is not audio,
    and a path that cannot be written. *)
Definition demo_store : world := {|
  files := <["white_noise_test.wav" := Audio [1; -1; 2]%R 44100]>
             (<["notes.txt" := Corrupt "Format not recognised."]> ∅);
  unwritable := {["/proc/out.wav"]}
|}.

End Profile.

(** A block of silence: every sample is 0. *)
Definition silent (l : list R) : Prop := Forall (fun x => x = 0%R) l.

(** An array in which every entry is [nan]. *)
Definition all_nan (l : list num) : Prop := Forall (fun x => x = NaN) l.

(** ** The engine object and its profile field *)

Module Engine.
Import Profile.

(** [AudioDeNoise]: the two private fields.  The profiler object built by
    [NoiseProfiler(data)] is held as the data it was built from. *)
Record engine : Type := {
  inputFile : string;
  noiseProfile : option (list R)
}.

(** [__init__] *)
Definition init (inputFile : string) : engine :=
  {| inputFile := inputFile; noiseProfile := None |}.

Definition set_profile (self : engine) (data : list R) : engine :=
  {| inputFile := inputFile self; noiseProfile := Some data |}.

Section Profiler.

Variable getNoiseDataPredicted : list R -> list R.

(** [generateNoiseProfile] with the object it mutates. *)
Definition generateNoiseProfile (self : engine) (w : world)
    (noiseFile : string) : engine * world * outcome unit :=
  if negb (exists_ w noiseFile)
  then (self, w, Raise (FileNotFoundError (not_found_msg noiseFile)))
  else
    match sf_read w noiseFile with
    | inl exc => (self, w, Raise (RuntimeError (read_msg noiseFile exc) exc))
    | inr (data, rate) =>
        let self' := set_profile self data in
        let noiseSignal := getNoiseDataPredicted data in
        match sf_write w noiseFile noiseSignal rate with
        | inl exc => (self', w, Raise (Uncaught exc))
        | inr w' => (self', w', Done tt)
        end
    end.

(** [generateNoiseProfileTo] with the object it mutates. *)
Definition generateNoiseProfileTo (self : engine) (w : world)
    (noiseFile outputFile : string) : engine * world * outcome unit :=
  if negb (exists_ w noiseFile)
  then (self, w, Raise (FileNotFoundError (not_found_msg noiseFile)))
  else
    match sf_read w noiseFile with
    | inl exc => (self, w, Raise (RuntimeError (read_msg noiseFile exc) exc))
    | inr (data, rate) =>
        let self' := set_profile self data in
        let noiseSignal := getNoiseDataPredicted data in
        match sf_write w outputFile noiseSignal rate with
        | inl exc =>
            (self', w, Raise (RuntimeError (write_msg outputFile exc) exc))
        | inr w' => (self', w', Done tt)
        end
    end.

End Profiler.

End Engine.

(** ** [audio_denoiser.py]: the choice of the noise sample *)

Module Script.
Import Profile.

Definition REQUESTED_NOISE_SAMPLE : string := "input_noise_profile.wav".
Definition FALLBACK_NOISE_SAMPLE : string := "white_noise_test.wav".
Definition OUT_DIR : string := "outputs".

(** [os.path.join] of a directory and a file name. *)
Definition path_join (dir name : string) : string := dir +:+ "/" +:+ name.

Definition OUTPUT_NOISE : string := path_join OUT_DIR "input_noise_output.wav".

(** [REQUESTED_NOISE_SAMPLE if os.path.exists(REQUESTED_NOISE_SAMPLE)
     else FALLBACK_NOISE_SAMPLE] *)
Definition noise_sample (w : world) : string :=
  if exists_ w REQUESTED_NOISE_SAMPLE then REQUESTED_NOISE_SAMPLE
  else FALLBACK_NOISE_SAMPLE.

(** The last statement of the script, run on the store [deNoise] left. *)
Definition noise_profile_step (getNoiseDataPredicted : list R -> list R)
    (w : world) : world * outcome unit :=
  generateNoiseProfileTo getNoiseDataPredicted w (noise_sample w) OUTPUT_NOISE.

End Script.

(** ** [audio_demo.py]: [mix_noise] *)

Module AudioDemo.
Import BlockSize.
Open Scope R_scope.

(** [np.max]: empty data is refused. *)
Definition np_max (l : list R) : outcome R :=
  match l with
  | [] => Raise ValueError
  | x :: rest => Done (fold_left Rmax rest x)
  end.

(** [np.ceil] followed by [int]. *)
Definition ceil_of_float (f : float) : outcome Z :=
  let! t := int_of_float f in
  if (of_Z t <? f)%float then Done (t + 1)%Z else Done t.

(** [int(np.ceil(len(clean) / len(noise)))]: the quotient of two lengths
    is a binary64 number; a length of 0 below the bar is refused. *)
Definition repeats (len_clean len_noise : nat) : outcome Z :=
  if Nat.eqb len_noise 0 then Raise ZeroDivisionError
  else ceil_of_float (of_Z (Z.of_nat len_clean) / of_Z (Z.of_nat len_noise))%float.

(** [np.tile] of a 1-D array. *)
Definition tile (noise : list R) (reps : Z) : list R :=
  concat (repeat noise (Z.to_nat reps)).

(** The noise cut or repeated to the length of the clean signal. *)
Definition fit_noise (clean noise : list R) : outcome (list R) :=
  if Nat.ltb (length noise) (length clean)
  then let! reps := repeats (length clean) (length noise) in
       Done (firstn (length clean) (tile noise reps))
  else Done (firstn (length clean) noise).

(** [a + b] on two 1-D arrays: equal lengths add entry by entry, an array
    of length 1 is spread over the other, any other pair is refused. *)
Definition add_arrays (a b : list R) : outcome (list R) :=
  if Nat.eqb (length a) (length b)
  then Done (map (fun p => fst p + snd p) (combine a b))
  else if Nat.eqb (length b) 1 then Done (map (fun x => x + hd 0 b) a)
  else if Nat.eqb (length a) 1 then Done (map (fun y => hd 0 a + y) b)
  else Raise ValueError.

Definition mix_noise (clean noise : list R) (noise_level : R)
    : outcome (list R) :=
  let! noise' := fit_noise clean noise in
  let! noisy := add_arrays clean (map (fun x => x * noise_level) noise') in
  let! peak := np_max (map Rabs noisy) in
  if Rlt_dec 1 peak then Done (map (fun x => x / peak) noisy)
  else Done noisy.

End AudioDemo.

(** ** [white_noise.py]: the scaling of the noise *)

Module WhiteNoise.
Import BlockSize.
Open Scope R_scope.

(** [int(samplerate * duration_seconds)] *)
Definition num_samples (samplerate : Z) (duration_seconds : float) : outcome Z :=
  int_of_float (of_Z samplerate * duration_seconds)%float.

(** [(noise_signal / np.max(np.abs(noise_signal))) * amplitude] on an array
    of [num_samples] rows of [channels] entries.  A peak of 0 means that
    every entry is 0, and [0 / 0] is [nan]. *)
Definition scale (noise_signal : list (list R)) (amplitude : R)
    : outcome (list (list num)) :=
  let! peak := AudioDemo.np_max (map Rabs (concat noise_signal)) in
  if Req_dec_T peak 0
  then Done (map (map (fun _ => NaN)) noise_signal)
  else Done (map (map (fun x => Fin (x / peak * amplitude))) noise_signal).

End WhiteNoise.

(** ** Stores for examples *)

Module Examples.
Import Profile.

(** A noise sample that can be read but not replaced. *)
Definition readonly_store : world := {|
  files := <["white_noise_test.wav" := Audio [1; -1; 2]%R 44100]> ∅;
  unwritable := {["white_noise_test.wav"]}
|}.

(** Both noise samples of [audio_denoiser.py] present. *)
Definition both_samples_store : world := {|
  files := <["input_noise_profile.wav" := Audio [3; 4]%R 16000]>
             (<["white_noise_test.wav" := Audio [1; -1; 2]%R 44100]> ∅);
  unwritable := ∅
|}.

End Examples.

(** The computed repeat count makes the tiled noise reach the clean
    signal, or the noise is long enough as it is. *)
Definition noise_covers (clean noise : list R) : Prop :=
  (length clean <= length noise)%nat \/
  exists reps,
    AudioDemo.repeats (length clean) (length noise) = Done reps /\
    (length clean <= Z.to_nat reps * length noise)%nat.

(** A signal under a gain, before and after the pipeline. *)
Definition gainR (c : R) (l : list R) : list R := map (fun x => (c * x)%R) l.

Definition gainN (c : R) (l : list num) : list num := map (nmul (Fin c)) l.

Definition gain_outcome (c : R) (o : outcome (list num)) : outcome (list num) :=
  match o with
  | Done out => Done (gainN c out)
  | Raise e => Raise e
  end.

(** * Properties *)

(** ** Lengths in the periodized filter bank *)

Section PywtLengths.
Import Pywt.

Lemma per_extend_length x :
  (length (per_extend x) / 2 = dwt_coeff_len (length x))%nat.
Proof.
  unfold per_extend, dwt_coeff_len.
  destruct (Nat.odd (length x)) eqn:E.
  - rewrite length_app. simpl. reflexivity.
  - rewrite <- Nat.negb_even in E. apply negb_false_iff in E.
    apply Nat.even_spec in E. destruct E as [k ->].
    rewrite (Nat.mul_comm 2 k), Nat.div_mul by lia.
    rewrite Nat.div_add_l by lia. simpl. lia.
Qed.

Lemma per_downsample_length f x :
  length (per_downsample f x) = dwt_coeff_len (length x).
Proof.
  unfold per_downsample. rewrite length_map, length_seq.
  apply per_extend_length.
Qed.

Lemma dwt_coeff_len_pos n : (0 < n -> 0 < dwt_coeff_len n)%nat.
Proof.
  unfold dwt_coeff_len. intros H.
  apply Nat.div_str_pos. lia.
Qed.

Lemma dwt_nonempty w x :
  x <> [] ->
  dwt w x = Done (per_downsample (dec_lo w) x, per_downsample (dec_hi w) x).
Proof. destruct x; [congruence | reflexivity]. Qed.

Lemma idwt_length w a d r :
  idwt w a d = Done r -> length r = (2 * length a)%nat.
Proof.
  unfold idwt. destruct (Nat.eqb _ _); [|discriminate].
  intros [= <-]. now rewrite length_map, length_seq.
Qed.

Lemma idwt_same_length w a d :
  length a = length d ->
  idwt w a d = Done (map (per_upsample_at w a d) (seq 0 (2 * length a))).
Proof. intros H. unfold idwt. now rewrite H, Nat.eqb_refl. Qed.

Lemma length_pos_nonempty {A} (l : list A) : (0 < length l)%nat -> l <> [].
Proof. destruct l; simpl; [lia | congruence]. Qed.

Lemma wavedec_level2 w x :
  x <> [] ->
  let cA1 := per_downsample (dec_lo w) x in
  wavedec w x 2 =
    Done [ per_downsample (dec_lo w) cA1;
           per_downsample (dec_hi w) cA1;
           per_downsample (dec_hi w) x ].
Proof.
  intros Hx cA1. unfold wavedec. simpl.
  rewrite (dwt_nonempty w x Hx). simpl.
  rewrite dwt_nonempty.
  - reflexivity.
  - apply length_pos_nonempty. rewrite per_downsample_length.
    apply dwt_coeff_len_pos. destruct x; simpl; [congruence | lia].
Qed.

Lemma dwt_coeff_len_double n :
  (2 * dwt_coeff_len n = n \/ 2 * dwt_coeff_len n = n + 1)%nat.
Proof.
  unfold dwt_coeff_len.
  pose proof (Nat.div_mod_eq (n + 1) 2) as E.
  pose proof (Nat.mod_upper_bound (n + 1) 2 ltac:(lia)) as B.
  lia.
Qed.

Lemma waverec_level2_length w c0 c1 c2 :
  length c0 = length c1 ->
  length c0 = dwt_coeff_len (length c2) ->
  exists r, waverec w [c0; c1; c2] = Done r /\ length r = (2 * length c2)%nat.
Proof.
  intros H01 H02. unfold waverec, waverec_loop.
  assert (Nat.eqb (length c0) (length c1 + 1) = false) as ->
    by (apply Nat.eqb_neq; lia).
  rewrite H01, Nat.eqb_refl. cbn [bind].
  rewrite (idwt_same_length w c0 c1 H01). cbn [bind].
  set (a := map _ _).
  assert (length a = (2 * length c0)%nat) as Ha
    by (unfold a; now rewrite length_map, length_seq).
  destruct (dwt_coeff_len_double (length c2)) as [E | E].
  - assert (Nat.eqb (length a) (length c2 + 1) = false) as ->
      by (apply Nat.eqb_neq; lia).
    assert (Nat.eqb (length a) (length c2) = true) as ->
      by (apply Nat.eqb_eq; lia).
    cbn [bind]. rewrite idwt_same_length by lia. cbn [bind].
    eexists; split; [reflexivity|].
    rewrite length_map, length_seq. lia.
  - assert (Nat.eqb (length a) (length c2 + 1) = true) as ->
      by (apply Nat.eqb_eq; lia).
    cbn [bind].
    assert (length (firstn (length c2) a) = length c2) as Hf
      by (rewrite length_firstn; lia).
    rewrite idwt_same_length by lia. cbn [bind].
    eexists; split; [reflexivity|].
    rewrite length_map, length_seq. lia.
Qed.

End PywtLengths.

(** ** [np.median] and [mad] on data that is not empty *)

Section Median.
Import Numpy.

Lemma insert_sorted_length x l :
  length (insert_sorted x l) = S (length l).
Proof.
  induction l as [|y l IH]; simpl; [reflexivity|].
  destruct (Rleb x y); simpl; [reflexivity | now rewrite IH].
Qed.

Lemma sort_length l : length (sort l) = length l.
Proof.
  induction l as [|x l IH]; simpl; [reflexivity|].
  now rewrite insert_sorted_length, IH.
Qed.

Lemma median_nonempty l : l <> [] -> exists m, median l = Fin m.
Proof.
  intros H. unfold median.
  destruct (length (sort l)) eqn:E.
  - rewrite sort_length in E. destruct l; [congruence | discriminate].
  - destruct (Nat.odd (S n)); eexists; reflexivity.
Qed.

Lemma mad_nonempty l : l <> [] -> exists sigma, mad l = Fin sigma.
Proof.
  intros H. unfold mad, compressed.
  destruct (median_nonempty l H) as [med ->].
  apply median_nonempty. destruct l; [congruence | discriminate].
Qed.

Lemma insert_sorted_In y x l :
  In y (insert_sorted x l) -> y = x \/ In y l.
Proof.
  induction l as [|z l IH]; simpl.
  - intros [<- | []]. now left.
  - destruct (Rleb x z); simpl.
    + intros [<- | [<- | H]]; auto.
    + intros [<- | H]; auto. destruct (IH H); auto.
Qed.

Lemma sort_In y l : In y (sort l) -> In y l.
Proof.
  induction l as [|x l IH]; simpl; [auto|].
  intros H. apply insert_sorted_In in H. destruct H as [-> | H]; auto.
Qed.

Lemma median_nonneg l m :
  Forall (fun x => 0 <= x)%R l -> median l = Fin m -> (0 <= m)%R.
Proof.
  intros Hl. unfold median.
  assert (forall i, (i < length (sort l))%nat -> (0 <= nth i (sort l) 0)%R) as Hn.
  { intros i Hi. rewrite Forall_forall in Hl. apply Hl, sort_In.
    now apply nth_In. }
  destruct (length (sort l)) as [|n] eqn:E; [discriminate|].
  assert (S n / 2 < S n)%nat as H2 by (apply Nat.div_lt; lia).
  destruct (Nat.odd (S n)); intros [= <-].
  - now apply Hn.
  - pose proof (Hn (S n / 2)%nat H2) as Ha.
    pose proof (Hn (S n / 2 - 1)%nat ltac:(lia)) as Hb.
    change (0 <= (nth (S n / 2 - 1) (sort l) 0 + nth (S n / 2) (sort l) 0) / 2)%R.
    lra.
Qed.

Lemma mad_nonneg l sigma : mad l = Fin sigma -> (0 <= sigma)%R.
Proof.
  unfold mad, compressed.
  destruct (median l) as [med|]; try discriminate.
  apply median_nonneg. apply Forall_forall. intros y Hy.
  apply in_map_iff in Hy. destruct Hy as (x & <- & _). apply Rabs_pos.
Qed.

End Median.

(** ** One block through the pipeline *)

Section Block.
Import Pywt AudioDeNoise.

Lemma threshold_each_map thresh arrays :
  threshold_each thresh arrays = Done (map (map (soft_by thresh)) arrays).
Proof.
  induction arrays as [|i rest IH]; simpl; [reflexivity|].
  now rewrite IH.
Qed.

Lemma shrink_cons thresh c0 details :
  shrink thresh (c0 :: details) =
    Done (map Fin c0 :: map (map (soft_by thresh)) details).
Proof. unfold shrink. now rewrite threshold_each_map. Qed.

Lemma shrunk_coefficients_nonempty block :
  block <> [] ->
  let cA1 := per_downsample (dec_lo db4) block in
  let cD1 := per_downsample (dec_hi db4) block in
  exists sigma,
    mad cD1 = Fin sigma /\
    shrunk_coefficients block =
      Done [ map Fin (per_downsample (dec_lo db4) cA1);
             map (soft (sigma * R_sqrt.sqrt (2 * ln (INR (length block)))))
                 (per_downsample (dec_hi db4) cA1);
             map (soft (sigma * R_sqrt.sqrt (2 * ln (INR (length block))))) cD1 ].
Proof.
  intros Hb cA1 cD1.
  assert (cD1 <> []) as HD.
  { apply length_pos_nonempty. unfold cD1. rewrite per_downsample_length.
    apply dwt_coeff_len_pos. destruct block; simpl; [congruence | lia]. }
  destruct (mad_nonempty cD1 HD) as [sigma Hs].
  exists sigma. split; [exact Hs|].
  unfold shrunk_coefficients. rewrite (wavedec_level2 db4 block Hb).
  cbn [bind last]. fold cD1. rewrite Hs.
  unfold universal_threshold.
  destruct (length block) eqn:E; [destruct block; simpl in E; congruence|].
  rewrite shrink_cons. reflexivity.
Qed.

Lemma process_block_nonempty block :
  block <> [] ->
  exists clean,
    process_block block = Done clean /\
    length clean = (2 * dwt_coeff_len (length block))%nat.
Proof.
  intros Hb. unfold process_block.
  destruct (shrunk_coefficients_nonempty block Hb) as (sigma & _ & ->).
  cbn [bind].
  edestruct (waverec_level2_length db4) as (r & -> & Hr).
  3: { exists r. split; [reflexivity|]. rewrite Hr.
       now rewrite length_map, per_downsample_length. }
  - now rewrite !length_map, !per_downsample_length.
  - now rewrite !length_map, !per_downsample_length.
Qed.

End Block.

(** ** The block loop *)

Section Loop.
Import Pywt AudioDeNoise.

Lemma blocks_fuel_stable bs f1 : forall f2 l,
  (0 < bs)%nat -> (length l <= f1)%nat -> (length l <= f2)%nat ->
  blocks_fuel f1 bs l = blocks_fuel f2 bs l.
Proof.
  induction f1 as [|f1 IH]; intros f2 l Hbs H1 H2.
  - destruct l; [now destruct f2 | simpl in H1; lia].
  - destruct l as [|x l]; [now destruct f2|].
    destruct f2 as [|f2]; [simpl in H2; lia|].
    cbn [blocks_fuel]. f_equal.
    cbn [length] in H1, H2.
    assert (length (skipn bs (x :: l)) <= length l)%nat as Hs
      by (rewrite length_skipn; cbn [length]; lia).
    apply IH; lia.
Qed.

Lemma blocks_fuel_enough fuel bs l :
  (0 < bs)%nat -> (length l <= fuel)%nat ->
  blocks_fuel fuel bs l = blocks bs l.
Proof.
  intros Hbs Hf. unfold blocks. apply blocks_fuel_stable; lia.
Qed.

Lemma deNoise_loop_blocks fuel bs remaining written :
  (0 < bs)%nat -> (length remaining <= fuel)%nat ->
  exists cleans,
    Forall2 (fun b c => process_block b = Done c)
            (blocks_fuel fuel bs remaining) cleans /\
    deNoise_loop fuel bs remaining written = Some (Done (written ++ concat cleans)).
Proof.
  intros Hbs. revert remaining written.
  induction fuel as [|fuel IH]; intros remaining written Hf.
  - destruct remaining; [|simpl in Hf; lia].
    exists []. split; [constructor|]. simpl. now rewrite app_nil_r.
  - destruct remaining as [|x r].
    + exists []. split; [constructor|]. simpl. now rewrite app_nil_r.
    + cbn [deNoise_loop blocks_fuel].
      destruct (process_block_nonempty (firstn bs (x :: r))) as (clean & Hc & _).
      { destruct bs; [lia | simpl; congruence]. }
      rewrite Hc.
      destruct (IH (skipn bs (x :: r)) (written ++ clean)) as (cleans & HF & ->).
      { rewrite length_skipn. simpl in *. lia. }
      exists (clean :: cleans). split; [now constructor|].
      simpl. now rewrite <- app_assoc.
Qed.

Lemma blocks_fuel_concat fuel bs l :
  (0 < bs)%nat -> (length l <= fuel)%nat ->
  concat (blocks_fuel fuel bs l) = l.
Proof.
  intros Hbs. revert l.
  induction fuel as [|fuel IH]; intros l Hf.
  - destruct l; [reflexivity | simpl in Hf; lia].
  - destruct l as [|x r]; [reflexivity|].
    cbn [blocks_fuel concat]. rewrite IH.
    + apply firstn_skipn.
    + rewrite length_skipn. simpl in *. lia.
Qed.

Lemma blocks_fuel_bounds fuel bs l :
  (0 < bs)%nat ->
  Forall (fun b => 0 < length b <= bs)%nat (blocks_fuel fuel bs l).
Proof.
  intros Hbs. revert l.
  induction fuel as [|fuel IH]; intros l.
  - destruct l; constructor.
  - destruct l as [|x r]; [constructor|].
    cbn [blocks_fuel]. constructor; [|apply IH].
    rewrite length_firstn. simpl. lia.
Qed.

Lemma blocks_fuel_lengths fuel bs : forall l,
  map (@length R) (blocks_fuel fuel bs l) = frame_counts fuel bs (length l).
Proof.
  induction fuel as [|fuel IH]; intros l.
  - now destruct l.
  - destruct l as [|x r]; [reflexivity|].
    cbn [blocks_fuel map]. rewrite IH, length_firstn, length_skipn.
    cbn [length frame_counts]. f_equal. f_equal. lia.
Qed.

Lemma dwt_coeff_len_parity n :
  (2 * dwt_coeff_len n = n + (if Nat.odd n then 1 else 0))%nat.
Proof.
  unfold dwt_coeff_len.
  destruct (Nat.odd n) eqn:E.
  - apply Nat.odd_spec in E. destruct E as [k ->].
    replace (2 * k + 1 + 1)%nat with ((k + 1) * 2)%nat by lia.
    rewrite Nat.div_mul by lia. lia.
  - rewrite <- Nat.negb_even in E. apply negb_false_iff in E.
    apply Nat.even_spec in E. destruct E as [k ->].
    rewrite (Nat.mul_comm 2 k), Nat.div_add_l by lia. simpl. lia.
Qed.

Lemma processed_length bl : forall cleans,
  Forall (fun b => b <> []) bl ->
  Forall2 (fun b c => process_block b = Done c) bl cleans ->
  length (concat cleans) = (length (concat bl) + length (odd_blocks bl))%nat.
Proof.
  induction bl as [|b bl IH]; intros cleans Hne HF; inversion HF; subst.
  - reflexivity.
  - inversion Hne; subst.
    destruct (process_block_nonempty b) as (c & Hc & Hlen); [assumption|].
    assert (y = c) as -> by congruence.
    cbn [concat odd_blocks List.filter]. rewrite !length_app, (IH l'); try assumption.
    rewrite Hlen, dwt_coeff_len_parity.
    unfold odd_blocks. destruct (Nat.odd (length b)); cbn [length]; lia.
Qed.

Lemma blocks_nonempty fuel bs l :
  (0 < bs)%nat -> Forall (fun b => b <> []) (blocks_fuel fuel bs l).
Proof.
  intros Hbs. eapply Forall_impl; [|apply blocks_fuel_bounds; exact Hbs].
  intros b [Hb _]. now apply length_pos_nonempty.
Qed.

Lemma frame_counts_even fuel bs : forall frames,
  Nat.even bs = true -> Nat.even frames = true ->
  Forall (fun n => Nat.odd n = false) (frame_counts fuel bs frames).
Proof.
  intros frames Hbs. revert frames.
  induction fuel as [|fuel IH]; intros frames Hf.
  - destruct frames; constructor.
  - destruct frames as [|frames]; [constructor|].
    cbn [frame_counts]. constructor.
    + rewrite <- Nat.negb_even. apply negb_false_iff.
      destruct (Nat.min_spec bs (S frames)) as [[_ ->] | [_ ->]]; assumption.
    + apply IH.
      destruct (Nat.min_spec bs (S frames)) as [[Hlt ->] | [_ ->]].
      * rewrite Nat.even_sub by lia. now rewrite Hf, Hbs.
      * now rewrite Nat.sub_diag.
Qed.

Lemma odd_blocks_none bl :
  Forall (fun n => Nat.odd n = false) (map (@length R) bl) ->
  odd_blocks bl = [].
Proof.
  induction bl as [|b bl IH]; intros H; [reflexivity|].
  inversion H; subst. unfold odd_blocks in *. cbn [List.filter].
  rewrite H2. now apply IH.
Qed.

End Loop.

(** ** Blocks of several channels *)

Section Frames.
Import Pywt AudioDeNoise MultiChannel.

Lemma each_total {A B : Type} (f : A -> outcome B) (P : A -> Prop)
    (Q : B -> Prop) (l : list A) :
  (forall x, P x -> exists y, f x = Done y /\ Q y) ->
  Forall P l ->
  exists ys, each f l = Done ys /\ length ys = length l /\ Forall Q ys.
Proof.
  intros Hf. induction 1 as [|x l Hx _ (ys & Hys & Hlen & HQ)].
  - exists []. repeat split; constructor.
  - destruct (Hf x Hx) as (y & Hy & Qy).
    exists (y :: ys). cbn [each]. rewrite Hy, Hys. cbn [bind].
    repeat split; [simpl; now rewrite Hlen | now constructor].
Qed.

(** The shape of the coefficient set of one frame of [ch] samples. *)
Lemma wavedec_frame_shape ch fr :
  (0 < ch)%nat -> length fr = ch ->
  exists cs, wavedec db4 fr 2 = Done cs /\
    exists c0 c1 c2, cs = [c0; c1; c2] /\
      length c0 = length c1 /\
      length c0 = dwt_coeff_len (length c2) /\
      length c2 = dwt_coeff_len ch.
Proof.
  intros Hch Hlen.
  assert (fr <> []) as Hne by (apply length_pos_nonempty; lia).
  eexists. split; [apply (wavedec_level2 db4 fr Hne)|].
  do 3 eexists. split; [reflexivity|].
  rewrite !per_downsample_length, Hlen. auto.
Qed.

Lemma shrink_shape ch thresh cs :
  (exists c0 c1 c2, cs = [c0; c1; c2] /\
      length c0 = length c1 /\
      length c0 = dwt_coeff_len (length c2) /\
      length c2 = dwt_coeff_len ch) ->
  exists s, shrink thresh cs = Done s /\
    exists c0 c1 c2 : list num, s = [c0; c1; c2] /\
      length c0 = length c1 /\
      length c0 = dwt_coeff_len (length c2) /\
      length c2 = dwt_coeff_len ch.
Proof.
  intros (c0 & c1 & c2 & -> & H01 & H02 & H2).
  eexists. split; [apply shrink_cons|].
  cbn [map]. do 3 eexists. split; [reflexivity|].
  now rewrite !length_map.
Qed.

Lemma waverec_shape ch (s : list (list num)) :
  (exists c0 c1 c2 : list num, s = [c0; c1; c2] /\
      length c0 = length c1 /\
      length c0 = dwt_coeff_len (length c2) /\
      length c2 = dwt_coeff_len ch) ->
  exists r, waverec db4 s = Done r /\
    length r = (2 * dwt_coeff_len ch)%nat.
Proof.
  intros (c0 & c1 & c2 & -> & H01 & H02 & H2).
  destruct (waverec_level2_length db4 c0 c1 c2 H01 H02) as (r & Hr & Hlen).
  exists r. split; [exact Hr|]. now rewrite Hlen, H2.
Qed.

(** One block of a file with [ch] channels: as many frames come back as
    went in, each of [2 * ceil(ch / 2)] samples. *)
Lemma process_frames_shape ch block :
  (0 < ch)%nat -> well_shaped ch block ->
  exists clean,
    process_frames block = Done clean /\
    length clean = length block /\
    Forall (fun fr => length fr = (2 * dwt_coeff_len ch)%nat) clean.
Proof.
  intros Hch Hw. unfold process_frames, wavedec_frames.
  destruct (each_total (fun fr => wavedec db4 fr 2) _ _ block
              (fun fr H => wavedec_frame_shape ch fr Hch H) Hw)
    as (cs & -> & Hl1 & H1).
  cbn [bind].
  destruct (each_total (shrink (threshold_of block cs)) _ _ cs
              (shrink_shape ch (threshold_of block cs)) H1)
    as (ss & -> & Hl2 & H2).
  cbn [bind].
  destruct (each_total (waverec db4) _ _ ss (waverec_shape ch) H2)
    as (clean & -> & Hl3 & H3).
  exists clean. split; [reflexivity|].
  split; [now rewrite Hl3, Hl2, Hl1 | exact H3].
Qed.

Lemma dwt_coeff_len_even ch :
  Nat.even ch = true -> (2 * dwt_coeff_len ch)%nat = ch.
Proof.
  intros H. apply Nat.even_spec in H. destruct H as [k ->].
  unfold dwt_coeff_len.
  rewrite (Nat.mul_comm 2 k), Nat.div_add_l by lia. simpl. lia.
Qed.

Lemma dwt_coeff_len_odd ch :
  Nat.odd ch = true -> (2 * dwt_coeff_len ch)%nat = S ch.
Proof.
  intros H. apply Nat.odd_spec in H. destruct H as [k ->].
  unfold dwt_coeff_len.
  replace (2 * k + 1 + 1)%nat with ((k + 1) * 2)%nat by lia.
  rewrite Nat.div_mul by lia. lia.
Qed.

Lemma shape_ok_true ch clean :
  Forall (fun fr : list num => length fr = ch) clean -> shape_ok ch clean = true.
Proof.
  intros H. unfold shape_ok. apply forallb_forall. intros fr Hfr.
  rewrite Forall_forall in H. apply Nat.eqb_eq. now apply H.
Qed.

Lemma shape_ok_false ch (clean : list (list num)) :
  clean <> [] ->
  Forall (fun fr : list num => length fr = S ch) clean ->
  shape_ok ch clean = false.
Proof.
  intros Hne H. destruct clean as [|fr clean]; [congruence|].
  inversion H as [|? ? Hfr _]; subst.
  unfold shape_ok. cbn [forallb]. rewrite Hfr.
  assert (Nat.eqb (S ch) ch = false) as -> by (apply Nat.eqb_neq; lia).
  reflexivity.
Qed.

(** With an even number of channels every block is written with the frames
    it was read with. *)
Lemma deNoise_loop_frames bs ch fuel :
  (0 < bs)%nat -> (0 < ch)%nat -> Nat.even ch = true ->
  forall remaining written,
    (length remaining <= fuel)%nat -> well_shaped ch remaining ->
    exists out,
      MultiChannel.deNoise_loop fuel bs ch remaining written =
        Some (Done (written ++ out)) /\
      length out = length remaining /\
      well_shaped_out ch out.
Proof.
  intros Hbs Hch Hev.
  induction fuel as [|fuel IH]; intros remaining written Hfuel Hw.
  - destruct remaining; [|simpl in Hfuel; lia].
    exists []. rewrite app_nil_r. repeat split. constructor.
  - destruct remaining as [|x r] eqn:E.
    { exists []. rewrite app_nil_r. repeat split. constructor. }
    rewrite <- E in *. assert (remaining <> []) as Hne by (subst; discriminate).
    assert (MultiChannel.deNoise_loop (S fuel) bs ch remaining written =
            match (let! clean := process_frames (firstn bs remaining) in
                   sf_write_frames ch clean) with
            | Done clean =>
                MultiChannel.deNoise_loop fuel bs ch (skipn bs remaining)
                  (written ++ clean)
            | Raise e => Some (Raise e)
            end) as -> by (rewrite E; reflexivity).
    destruct (process_frames_shape ch (firstn bs remaining) Hch)
      as (clean & -> & Hlen & Hshape); [now apply Forall_take|].
    cbn [bind]. rewrite dwt_coeff_len_even in Hshape by exact Hev.
    unfold sf_write_frames. rewrite (shape_ok_true ch clean Hshape).
    destruct (IH (skipn bs remaining) (written ++ clean)) as (out & -> & Hl & Ho).
    + rewrite length_skipn. subst remaining. simpl in *. lia.
    + now apply Forall_drop.
    + exists (clean ++ out). rewrite app_assoc. split; [reflexivity|].
      split.
      * rewrite length_app, Hlen, Hl, length_firstn, length_skipn. lia.
      * apply Forall_app. split; assumption.
Qed.

Lemma deNoise_frames_even fuel rate ch input bs :
  BlockSize.blockSize_of (MultiChannel.info_of rate ch input) = Done bs ->
  (0 < bs)%Z -> (0 < ch)%nat -> Nat.even ch = true ->
  well_shaped ch input -> (length input <= fuel)%nat ->
  exists out,
    MultiChannel.deNoise fuel rate ch input = Some (Done out) /\
    length out = length input /\
    well_shaped_out ch out.
Proof.
  intros Hbs Hpos Hch Hev Hw Hfuel. unfold MultiChannel.deNoise. rewrite Hbs.
  assert (0 < Z.to_nat bs)%nat as Hnat by lia.
  destruct (deNoise_loop_frames (Z.to_nat bs) ch fuel Hnat Hch Hev input []
              Hfuel Hw) as (out & H & Hl & Ho).
  exists out. now rewrite H.
Qed.

(** With an odd number of channels above one, [waverec] returns frames of
    one sample more than the file has channels and the first write is
    refused. *)
Lemma deNoise_frames_odd fuel rate ch input bs :
  BlockSize.blockSize_of (MultiChannel.info_of rate ch input) = Done bs ->
  (0 < bs)%Z -> Nat.odd ch = true ->
  well_shaped ch input -> input <> [] ->
  MultiChannel.deNoise (S fuel) rate ch input = Some (Raise ValueError).
Proof.
  intros Hbs Hpos Hodd Hw Hne. unfold MultiChannel.deNoise. rewrite Hbs.
  destruct input as [|x r] eqn:E; [congruence|]. rewrite <- E in *.
  assert (0 < ch)%nat as Hch by (destruct ch; [discriminate | lia]).
  assert (MultiChannel.deNoise_loop (S fuel) (Z.to_nat bs) ch input [] =
          match (let! clean := process_frames (firstn (Z.to_nat bs) input) in
                 sf_write_frames ch clean) with
          | Done clean =>
              MultiChannel.deNoise_loop fuel (Z.to_nat bs) ch
                (skipn (Z.to_nat bs) input) ([] ++ clean)
          | Raise e => Some (Raise e)
          end) as -> by (rewrite E; reflexivity).
  destruct (process_frames_shape ch (firstn (Z.to_nat bs) input) Hch)
    as (clean & -> & Hlen & Hshape); [now apply Forall_take|].
  cbn [bind]. rewrite dwt_coeff_len_odd in Hshape by exact Hodd.
  unfold sf_write_frames. rewrite (shape_ok_false ch clean); [reflexivity| |exact Hshape].
  apply length_pos_nonempty. rewrite Hlen, length_firstn.
  subst input. simpl. lia.
Qed.

End Frames.

(** ** The round trip through the filter bank *)

Section RoundTrip.
Import Pywt.
Local Open Scope R_scope.




Lemma Rsum_app l l' : Rsum (l ++ l') = Rsum l + Rsum l'.
Proof. unfold Rsum. induction l; simpl; [ring | rewrite IHl; ring]. Qed.




































End RoundTrip.


(** ** The output of [deNoise] *)

Section Output.
Import Pywt AudioDeNoise.

Lemma deNoise_blocks fuel rate input bs :
  BlockSize.blockSize_of (info_of rate input) = Done bs ->
  (0 < bs)%Z -> (length input <= fuel)%nat ->
  exists cleans,
    Forall2 (fun b c => process_block b = Done c)
            (blocks (Z.to_nat bs) input) cleans /\
    deNoise fuel rate input = Some (Done (concat cleans)).
Proof.
  intros Hbs Hpos Hfuel. unfold deNoise. rewrite Hbs.
  destruct (deNoise_loop_blocks fuel (Z.to_nat bs) input []) as (cleans & HF & ->);
    [lia | assumption |].
  exists cleans. split; [|reflexivity].
  now rewrite blocks_fuel_enough in HF by lia.
Qed.

Lemma deNoise_blocks_length fuel rate input bs :
  BlockSize.blockSize_of (info_of rate input) = Done bs ->
  (0 < bs)%Z -> (length input <= fuel)%nat ->
  exists out,
    deNoise fuel rate input = Some (Done out) /\
    length out =
      (length input + length (odd_blocks (blocks (Z.to_nat bs) input)))%nat.
Proof.
  intros Hbs Hpos Hfuel.
  destruct (deNoise_blocks fuel rate input bs Hbs Hpos Hfuel) as (cleans & HF & ->).
  eexists. split; [reflexivity|].
  assert (0 < Z.to_nat bs)%nat as Hnat by lia.
  rewrite (processed_length _ _ (blocks_nonempty _ _ _ Hnat) HF).
  unfold blocks at 1. rewrite blocks_fuel_concat by lia. reflexivity.
Qed.

Lemma even_blocks_no_odd bs input :
  Nat.even bs = true -> Nat.even (length input) = true ->
  odd_blocks (blocks bs input) = [].
Proof.
  intros Hb Hn. apply odd_blocks_none. unfold blocks.
  rewrite blocks_fuel_lengths. now apply frame_counts_even.
Qed.

(** C1 (as amended).  For a mono input whose computed block size is
    positive, [deNoise] terminates and writes, for each block, twice the
    half-length rounded up: the output has the input's sample count plus one
    sample per block of odd length.  It has exactly the input's count when
    the block size and the sample count are both even, whether or not the
    block size divides the count.  For an input with an even number of
    channels (stereo included) and a positive block size, where every frame
    is transformed across its channels, [deNoise] terminates and writes
    exactly as many frames as the input has, each with the input's channel
    count, whatever the block size.  For an odd number of channels above
    one the first write is refused with [ValueError]. *)
Theorem deNoise_output_length :
  (forall rate input bs,
     BlockSize.blockSize_of (info_of rate input) = Done bs ->
     (0 < bs)%Z ->
     exists out,
       deNoise (length input) rate input = Some (Done out) /\
       length out =
         (length input + length (odd_blocks (blocks (Z.to_nat bs) input)))%nat /\
       (Nat.even (Z.to_nat bs) = true -> Nat.even (length input) = true ->
        length out = length input)) /\
  (forall rate ch input bs,
     BlockSize.blockSize_of (MultiChannel.info_of rate ch input) = Done bs ->
     (0 < bs)%Z -> (1 < ch)%nat -> MultiChannel.well_shaped ch input ->
     (Nat.even ch = true ->
      exists out,
        MultiChannel.deNoise (length input) rate ch input = Some (Done out) /\
        length out = length input /\
        MultiChannel.well_shaped_out ch out) /\
     (Nat.odd ch = true -> input <> [] ->
      forall fuel,
        MultiChannel.deNoise (S fuel) rate ch input = Some (Raise ValueError))).
Proof.
  split.
  - intros rate input bs Hbs Hpos.
    destruct (deNoise_blocks_length (length input) rate input bs Hbs Hpos)
      as (out & Hout & Hlen); [lia|].
    exists out. repeat split; try assumption.
    intros Hb Hn. rewrite Hlen, even_blocks_no_odd by assumption.
    simpl. lia.
  - intros rate ch input bs Hbs Hpos Hch Hw. split.
    + intros Hev.
      apply (deNoise_frames_even (length input) rate ch input bs);
        try assumption; lia.
    + intros Hodd Hne fuel.
      now apply (deNoise_frames_odd fuel rate ch input bs).
Qed.

Lemma deNoise_output_length_witness :
  (BlockSize.blockSize_of (info_of 40 (repeat 0%R 47)) = Done 4%Z /\
   (0 < 4)%Z /\
   exists out,
     deNoise 47 40 (repeat 0%R 47) = Some (Done out) /\
     length out = (47 + 1)%nat) /\
  (BlockSize.blockSize_of
     (MultiChannel.info_of 30 2 (repeat [1%R; 2%R] 30)) = Done 3%Z /\
   (0 < 3)%Z /\ (1 < 2)%nat /\
   MultiChannel.well_shaped 2 (repeat [1%R; 2%R] 30) /\
   exists out,
     MultiChannel.deNoise 30 30 2 (repeat [1%R; 2%R] 30) = Some (Done out) /\
     length out = 30%nat).
Proof.
  split.
  - assert (BlockSize.blockSize_of (info_of 40 (repeat 0%R 47)) = Done 4%Z) as H
      by (vm_compute; reflexivity).
    split; [exact H|]. split; [lia|].
    destruct (proj1 deNoise_output_length 40%Z (repeat 0%R 47) 4%Z H ltac:(lia))
      as (out & Hout & Hlen & _).
    exists out. split; [exact Hout|]. rewrite Hlen. reflexivity.
  - assert (BlockSize.blockSize_of
              (MultiChannel.info_of 30 2 (repeat [1%R; 2%R] 30)) = Done 3%Z) as H
      by (vm_compute; reflexivity).
    assert (MultiChannel.well_shaped 2 (repeat [1%R; 2%R] 30)) as Hw
      by (apply Forall_forall; intros fr Hfr;
          apply repeat_spec in Hfr; now subst fr).
    split; [exact H|]. split; [lia|]. split; [lia|]. split; [exact Hw|].
    destruct (proj1 (proj2 deNoise_output_length 30%Z 2%nat
                       (repeat [1%R; 2%R] 30) 3%Z H ltac:(lia) ltac:(lia) Hw)
                eq_refl) as (out & Hout & Hlen & _).
    exists out. split; [exact Hout|]. rewrite Hlen. reflexivity.
Defined.

(** C1, counterexample: a mono input of 30 samples at 30 Hz is cut into ten
    blocks of three samples, each written back as four: 40 samples for
    30. *)
Lemma deNoise_length_not_preserved :
  exists out,
    deNoise 30 30 (repeat 1%R 30) = Some (Done out) /\
    length (repeat 1%R 30) = 30%nat /\ length out = 40%nat.
Proof.
  assert (BlockSize.blockSize_of (info_of 30 (repeat 1%R 30)) = Done 3%Z) as H
    by (vm_compute; reflexivity).
  destruct (deNoise_blocks_length 30 30 (repeat 1%R 30) 3%Z H ltac:(lia))
    as (out & Hout & Hlen); [simpl; lia|].
  exists out. split; [exact Hout|]. split; [reflexivity|].
  rewrite Hlen. reflexivity.
Qed.

End Output.

(** ** Block sizing *)

Section Sizing.
Import AudioDeNoise.

Lemma frame_counts_full fuel bs : forall frames,
  (0 < bs)%nat -> (frames <= fuel)%nat ->
  frame_counts fuel bs frames =
    repeat bs (frames / bs)
      ++ (if Nat.eqb (frames mod bs) 0 then [] else [frames mod bs]).
Proof.
  induction fuel as [|fuel IH]; intros frames Hbs Hf.
  - assert (frames = 0)%nat as -> by lia.
    rewrite Nat.Div0.div_0_l, Nat.Div0.mod_0_l. reflexivity.
  - destruct frames as [|n].
    + rewrite Nat.Div0.div_0_l, Nat.Div0.mod_0_l. reflexivity.
    + cbn [frame_counts].
      destruct (Nat.min_spec bs (S n)) as [[Hlt ->] | [Hge ->]].
      * assert (S n = S n - bs + 1 * bs)%nat as E by lia.
        assert (S n / bs = S ((S n - bs) / bs))%nat as ->
          by (rewrite E at 1; rewrite Nat.div_add by lia; lia).
        assert (S n mod bs = (S n - bs) mod bs)%nat as ->
          by (rewrite E at 1; now rewrite Nat.Div0.mod_add).
        rewrite IH by lia. reflexivity.
      * rewrite Nat.sub_diag.
        assert (frame_counts fuel bs 0 = []) as -> by now destruct fuel.
        destruct (Nat.eq_dec bs (S n)) as [-> | Hne].
        -- rewrite Nat.div_same, Nat.Div0.mod_same by lia. reflexivity.
        -- rewrite Nat.div_small, Nat.mod_small by lia. reflexivity.
Qed.

Lemma blocks_lengths bs input :
  (0 < bs)%nat ->
  map (@length R) (blocks bs input) =
    repeat bs (length input / bs)
      ++ (if Nat.eqb (length input mod bs) 0 then []
          else [length input mod bs]).
Proof.
  intros Hbs. unfold blocks. rewrite blocks_fuel_lengths.
  now apply frame_counts_full.
Qed.

(** C2 (as amended).  The block size is [int(rate * duration * 0.10)], the
    binary64 product truncated toward zero.  When it is positive the input is
    cut, in order, into [N / blockSize] blocks of exactly that size followed,
    when there is a remainder, by one shorter block, and [deNoise] writes the
    processed blocks in that order.  At 16000 Hz, 25600 frames (1.6 s) give a
    block size of 2560 and exactly ten full blocks. *)
Theorem block_sizing :
  (forall rate input bs,
     BlockSize.blockSize_of (info_of rate input) = Done bs -> (0 < bs)%Z ->
     let blocksize := Z.to_nat bs in
     concat (blocks blocksize input) = input /\
     map (@length R) (blocks blocksize input) =
       repeat blocksize (length input / blocksize)
         ++ (if Nat.eqb (length input mod blocksize) 0 then []
             else [length input mod blocksize]) /\
     exists cleans,
       Forall2 (fun b c => process_block b = Done c)
               (blocks blocksize input) cleans /\
       deNoise (length input) rate input = Some (Done (concat cleans))) /\
  (forall input,
     Z.of_nat (length input) = 25600%Z ->
     BlockSize.blockSize_of (info_of 16000 input) = Done 2560%Z /\
     map (@length R) (blocks 2560 input) = repeat 2560%nat 10).
Proof.
  split.
  - intros rate input bs Hbs Hpos blocksize.
    assert (0 < blocksize)%nat as Hnat by (unfold blocksize; lia).
    split; [|split].
    + unfold blocks. now apply blocks_fuel_concat.
    + now apply blocks_lengths.
    + apply (deNoise_blocks (length input) rate input bs Hbs Hpos). lia.
  - intros input Hlen. split.
    + unfold BlockSize.blockSize_of, info_of. rewrite Hlen.
      vm_compute. reflexivity.
    + rewrite blocks_lengths by lia.
      assert (length input = Z.to_nat 25600) as -> by lia.
      vm_compute. reflexivity.
Qed.

Lemma block_sizing_witness :
  let input := repeat 0%R 47 in
  BlockSize.blockSize_of (info_of 40 input) = Done 4%Z /\
  (0 < 4)%Z /\
  concat (blocks 4 input) = input /\
  map (@length R) (blocks 4 input) = repeat 4%nat 11 ++ [3%nat] /\
  let second := repeat 0%R (Z.to_nat 25600) in
  Z.of_nat (length second) = 25600%Z /\
  map (@length R) (blocks 2560 second) = repeat 2560%nat 10.
Proof.
  intros input.
  assert (BlockSize.blockSize_of (info_of 40 input) = Done 4%Z) as H
    by (vm_compute; reflexivity).
  split; [exact H|]. split; [lia|].
  destruct (proj1 block_sizing 40%Z input 4%Z H ltac:(lia)) as (Hc & Hl & _).
  split; [exact Hc|]. split; [exact Hl|].
  intros second.
  assert (Z.of_nat (length second) = 25600%Z) as H2
    by (unfold second; rewrite repeat_length; reflexivity).
  split; [exact H2|].
  exact (proj2 (proj2 block_sizing second H2)).
Defined.

(** C2, counterexample: 17 frames at 10 Hz make the product
    [1.7000000000000002]; the code's [int] gives a block size of 1 where
    rounding gives 2. *)
Lemma blockSize_truncates_not_rounds :
  BlockSize.blockSize_of
    {| BlockSize.frames := 17; BlockSize.samplerate := 10;
       BlockSize.channels := 1 |} = Done 1%Z /\
  BlockSize.blockSize_rounded_of
    {| BlockSize.frames := 17; BlockSize.samplerate := 10;
       BlockSize.channels := 1 |} = Done 2%Z.
Proof. split; vm_compute; reflexivity. Qed.

End Sizing.

(** ** Soft thresholding *)

Section Shrinkage.
Import Pywt AudioDeNoise.
Local Open Scope R_scope.

Lemma scaled_clip a v : 0 < a -> a * Rmax (1 - v / a) 0 = Rmax (a - v) 0.
Proof.
  intros Ha. rewrite <- RmaxRmult by lra.
  f_equal; [field; lra | ring].
Qed.

Lemma soft_nonzero value x :
  x <> 0 -> soft value x = Fin (sign x * Rmax (Rabs x - value) 0).
Proof.
  intros Hx. unfold soft. destruct (Req_dec_T x 0) as [E | _]; [contradiction|].
  f_equal. unfold sign.
  destruct (Rlt_dec 0 x) as [Hp | Hp].
  - rewrite (Rabs_right x) by lra. rewrite scaled_clip by exact Hp. ring.
  - destruct (Rlt_dec x 0) as [Hn | Hn]; [|lra].
    rewrite (Rabs_left x) by exact Hn.
    replace (x * Rmax (1 - value / - x) 0)
      with (- (- x * Rmax (1 - value / - x) 0)) by ring.
    rewrite scaled_clip by lra. ring.
Qed.

Lemma soft_at_zero value : 0 < value -> soft value 0 = Fin 0.
Proof.
  intros Hv. unfold soft. destruct (Req_dec_T 0 0) as [_ | E]; [|contradiction].
  destruct (Rlt_dec 0 value); [reflexivity | contradiction].
Qed.

Lemma sign_zero : sign 0 = 0.
Proof.
  unfold sign. destruct (Rlt_dec 0 0); [lra|]. destruct (Rlt_dec 0 0); [lra|].
  reflexivity.
Qed.

Lemma soft_formula value x :
  0 < value -> soft value x = Fin (sign x * Rmax (Rabs x - value) 0).
Proof.
  intros Hv. destruct (Req_dec_T x 0) as [-> | Hx].
  - rewrite soft_at_zero by exact Hv. rewrite sign_zero. f_equal. ring.
  - now apply soft_nonzero.
Qed.

Lemma soft_zero_nonzero x : x <> 0 -> soft 0 x = Fin x.
Proof.
  intros Hx. rewrite soft_nonzero by exact Hx. f_equal.
  rewrite Rminus_0_r, Rmax_left by apply Rabs_pos.
  unfold sign, Rabs.
  destruct (Rlt_dec 0 x), (Rlt_dec x 0), (Rcase_abs x); lra.
Qed.

Lemma map_soft_zero data :
  Forall (fun x => x <> 0) data -> map (soft 0) data = map Fin data.
Proof.
  induction 1 as [|x data Hx _ IH]; simpl; [reflexivity|].
  now rewrite soft_zero_nonzero, IH.
Qed.

Lemma universal_threshold_zero_sigma len :
  universal_threshold (Fin 0) (S len) = Fin 0.
Proof. unfold universal_threshold, nmul. f_equal. ring. Qed.

Lemma universal_threshold_one sigma :
  universal_threshold (Fin sigma) 1 = Fin 0.
Proof.
  unfold universal_threshold, nmul. cbn [INR]. f_equal.
  now rewrite ln_1, Rmult_0_r, sqrt_0, Rmult_0_r.
Qed.

Lemma mad_singleton x : mad [x] = Fin 0.
Proof.
  unfold mad, Numpy.compressed, Numpy.median. cbn.
  now rewrite Rminus_diag, Rabs_R0.
Qed.

(** C6 (as amended).  For every array and every [thresh > 0] the soft
    threshold is, element by element, [sign(x) * max(|x| - thresh, 0)], and
    the same holds for [thresh = 0] on arrays without a zero entry, which
    are handed back unchanged; [[-5, -2, 0, 2, 5]] with [thresh = 2] gives
    [[-3, 0, 0, 0, 3]]; no value of [thresh], negative ones included, makes
    the call fail; and the threshold [deNoise] computes from a block is
    never negative. *)
Theorem softThreshold_correct :
  (forall data thresh, 0 < thresh ->
     threshold_soft data (Fin thresh) =
       Done (map (fun x => Fin (sign x * Rmax (Rabs x - thresh) 0)) data)) /\
  (forall data, Forall (fun x => x <> 0) data ->
     threshold_soft data (Fin 0) =
       Done (map (fun x => Fin (sign x * Rmax (Rabs x - 0) 0)) data) /\
     threshold_soft data (Fin 0) = Done (map Fin data)) /\
  threshold_soft [-5; -2; 0; 2; 5] (Fin 2) =
    Done [Fin (-3); Fin 0; Fin 0; Fin 0; Fin 3] /\
  (forall data thresh, exists shrunk,
     threshold_soft data thresh = Done shrunk /\ length shrunk = length data) /\
  (forall arr len sigma thresh,
     mad arr = Fin sigma -> universal_threshold (Fin sigma) len = Fin thresh ->
     0 <= thresh).
Proof.
  split; [|split; [|split; [|split]]].
  - intros data thresh Hpos. unfold threshold_soft. f_equal.
    apply map_ext. intros x. now apply soft_formula.
  - intros data Hnz. unfold threshold_soft. split; f_equal.
    + apply map_ext_in. intros x Hx. apply soft_nonzero.
      rewrite Forall_forall in Hnz. now apply Hnz.
    + now apply map_soft_zero.
  - unfold threshold_soft. cbn [map soft_by].
    rewrite !soft_formula by lra. rewrite sign_zero.
    repeat f_equal; unfold sign, Rabs, Rmax;
      repeat match goal with
             | |- context [Rcase_abs ?a] => destruct (Rcase_abs a)
             | |- context [Rlt_dec ?a ?b] => destruct (Rlt_dec a b)
             | |- context [Rle_dec ?a ?b] => destruct (Rle_dec a b)
             end; lra.
  - intros data thresh. eexists. split; [reflexivity|]. apply length_map.
  - intros arr len sigma thresh Hs. apply mad_nonneg in Hs.
    unfold universal_threshold. destruct len; [discriminate|].
    intros [= <-]. apply Rmult_le_pos; [exact Hs | apply sqrt_pos].
Qed.

Lemma softThreshold_correct_witness :
  0 < 1 /\
  threshold_soft [3; -4] (Fin 1) =
    Done (map (fun x => Fin (sign x * Rmax (Rabs x - 1) 0)) [3; -4]) /\
  Forall (fun x => x <> 0) [3; -4] /\
  threshold_soft [3; -4] (Fin 0) = Done [Fin 3; Fin (-4)] /\
  mad [7] = Fin 0 /\ universal_threshold (Fin 0) 4 = Fin 0 /\ 0 <= 0.
Proof.
  split; [lra|].
  split; [apply (proj1 softThreshold_correct [3; -4] 1); lra|].
  assert (Forall (fun x => x <> 0) [3; -4]) as Hnz
    by (repeat constructor; lra).
  split; [exact Hnz|].
  split; [exact (proj2 (proj1 (proj2 softThreshold_correct) [3; -4] Hnz))|].
  assert (mad [7] = Fin 0) as Hm by apply mad_singleton.
  assert (universal_threshold (Fin 0) 4 = Fin 0) as Hu
    by apply universal_threshold_zero_sigma.
  split; [exact Hm|]. split; [exact Hu|].
  exact (proj2 (proj2 (proj2 (proj2 softThreshold_correct))) [7] 4%nat 0 0 Hm Hu).
Defined.

(** C6, counterexample: a negative threshold is not refused; the call
    returns, with the value pushed away from zero. *)
Lemma negative_threshold_not_refused :
  threshold_soft [2] (Fin (-1)) = Done [Fin 3] /\
  threshold_soft [2] (Fin (-1)) <> Raise ValueError.
Proof.
  split; [|discriminate].
  unfold threshold_soft. cbn [map soft_by].
  rewrite soft_nonzero by lra. repeat f_equal.
  unfold sign, Rabs, Rmax.
  destruct (Rlt_dec 0 2), (Rcase_abs 2), (Rle_dec (2 - -1) 0); lra.
Qed.

(** C4 (as amended).  For an array of length 1 [mad] returns 0; a scale of
    0 makes the threshold 0 for every block that is not empty, and a
    threshold of 0 hands every non-zero detail coefficient on unchanged,
    with the approximation array.  For an array of length 0 [mad] does not
    fail either, but its result is numpy's [nan], not 0.  In the loop over
    a mono input [mad] is not reached with an empty array: the finest
    detail array of a block that is not empty is not empty, and an empty
    block is refused by [wavedec] before [mad] is called. *)
Theorem mad_short_arrays :
  (forall x, mad [x] = Fin 0) /\
  mad [] = NaN /\
  (forall len, universal_threshold (Fin 0) (S len) = Fin 0) /\
  (forall c0 details,
     Forall (Forall (fun x => x <> 0)) details ->
     shrink (Fin 0) (c0 :: details) = Done (map Fin c0 :: map (map Fin) details)) /\
  (forall block, block <> [] ->
     exists cA2 cD2 cD1 sigma,
       wavedec db4 block 2 = Done [cA2; cD2; cD1] /\
       cD1 <> [] /\ mad cD1 = Fin sigma) /\
  wavedec db4 [] 2 = Raise ValueError /\
  shrunk_coefficients [] = Raise ValueError /\
  process_block [] = Raise ValueError.
Proof.
  split; [exact mad_singleton|].
  split; [reflexivity|].
  split; [exact universal_threshold_zero_sigma|].
  split.
  { intros c0 details H. rewrite shrink_cons. do 2 f_equal.
    change (soft_by (Fin 0)) with (soft 0).
    induction H as [|d details Hd _ IH]; simpl; [reflexivity|].
    now rewrite IH, (map_soft_zero d Hd). }
  split; [|repeat split; reflexivity].
  intros block Hb.
  assert (per_downsample (dec_hi db4) block <> []) as HD.
  { apply length_pos_nonempty. rewrite per_downsample_length.
    apply dwt_coeff_len_pos. destruct block; simpl; [congruence | lia]. }
  destruct (mad_nonempty _ HD) as [sigma Hs].
  do 3 eexists. exists sigma.
  split; [apply (wavedec_level2 db4 block Hb)|]. split; assumption.
Qed.

Lemma mad_short_arrays_witness :
  Forall (Forall (fun x => x <> 0)) [[1; -2]; [3]] /\
  shrink (Fin 0) [[5; 0]; [1; -2]; [3]] =
    Done [[Fin 5; Fin 0]; [Fin 1; Fin (-2)]; [Fin 3]] /\
  [7] <> [] /\
  exists cA2 cD2 cD1 sigma,
    wavedec db4 [7] 2 = Done [cA2; cD2; cD1] /\
    cD1 <> [] /\ mad cD1 = Fin sigma.
Proof.
  assert (Forall (Forall (fun x => x <> 0)) [[1; -2]; [3]]) as H
    by (repeat constructor; lra).
  assert ([7] <> []) as H7 by discriminate.
  split; [exact H|].
  split; [exact (proj1 (proj2 (proj2 (proj2 mad_short_arrays)))
                   [5; 0] [[1; -2]; [3]] H)|].
  split; [exact H7|].
  exact (proj1 (proj2 (proj2 (proj2 (proj2 mad_short_arrays)))) [7] H7).
Defined.

(** C4, counterexample: the median of no data is [nan]. *)
Lemma mad_empty_is_nan : mad [] = NaN /\ mad [] <> Fin 0.
Proof. split; [reflexivity | discriminate]. Qed.



(** C5 (as amended).  A block of one sample goes through the loop body
    without any failure: its threshold is [sigma * sqrt(2 * ln 1) = 0]
    whatever the scale estimate is, a threshold of 0 hands a non-zero
    detail coefficient on unchanged, and the block is written back as two
    samples, not as the one sample read.  For an input of no samples the
    loop body is never entered and the output is empty.  A block of no
    samples, which the loop is handed when the block size is 0, is refused
    by [wavedec] with [ValueError] before any logarithm is taken: so it is
    for an input of one sample at 16000 Hz. *)
Theorem degenerate_block_safe :
  (forall x, exists c0 c1 c2 clean,
     wavedec db4 [x] 2 = Done [c0; c1; c2] /\
     universal_threshold (mad c2) (length [x]) = Fin 0 /\
     shrunk_coefficients [x] =
       Done [map Fin c0; map (soft 0) c1; map (soft 0) c2] /\
     waverec db4 [map Fin c0; map (soft 0) c1; map (soft 0) c2] = Done clean /\
     process_block [x] = Done clean /\
     length clean = 2%nat) /\
  (forall sigma, universal_threshold (Fin sigma) 1 = Fin 0) /\
  (forall c, c <> 0 -> soft 0 c = Fin c) /\
  (forall fuel rate bs,
     BlockSize.blockSize_of (info_of rate []) = Done bs ->
     deNoise fuel rate [] = Some (Done [])) /\
  (forall fuel, deNoise fuel 16000 [] = Some (Done [])) /\
  process_block [] = Raise ValueError /\
  (forall fuel x, deNoise (S fuel) 16000 [x] = Some (Raise ValueError)).
Proof.
  split; [|split; [exact universal_threshold_one|split; [exact soft_zero_nonzero|split; [|split; [|split]]]]].
  - intros x.
    assert ([x] <> []) as Hx by discriminate.
    destruct (shrunk_coefficients_nonempty [x] Hx) as (sigma & Hm & Hs).
    destruct (process_block_nonempty [x] Hx) as (clean & Hc & Hlen).
    cbn [length INR] in Hs.
    rewrite ln_1, Rmult_0_r, sqrt_0, Rmult_0_r in Hs.
    do 3 eexists. exists clean.
    split; [now rewrite (wavedec_level2 db4 [x] Hx)|].
    split; [rewrite Hm; apply universal_threshold_one|].
    split; [exact Hs|].
    split; [|split; [exact Hc | exact Hlen]].
    unfold process_block in Hc. rewrite Hs in Hc. exact Hc.
  - intros fuel rate bs Hbs. unfold deNoise. rewrite Hbs. now destruct fuel.
  - intros fuel. unfold deNoise.
    assert (BlockSize.blockSize_of (info_of 16000 []) = Done 0%Z) as ->
      by (vm_compute; reflexivity).
    now destruct fuel.
  - reflexivity.
  - intros fuel x. unfold deNoise.
    assert (BlockSize.blockSize_of (info_of 16000 [x]) = Done 0%Z) as ->
      by (vm_compute; reflexivity).
    reflexivity.
Qed.

Lemma degenerate_block_safe_witness :
  5 <> 0 /\ soft 0 5 = Fin 5 /\
  BlockSize.blockSize_of (info_of 44100 []) = Done 0%Z /\
  deNoise 0 44100 [] = Some (Done []).
Proof.
  assert (5 <> 0) as H5 by lra.
  split; [exact H5|].
  split; [exact (proj1 (proj2 (proj2 degenerate_block_safe)) 5 H5)|].
  assert (BlockSize.blockSize_of (info_of 44100 []) = Done 0%Z) as H
    by (vm_compute; reflexivity).
  split; [exact H|].
  exact (proj1 (proj2 (proj2 (proj2 degenerate_block_safe))) 0%nat 44100%Z 0%Z H).
Defined.

End Shrinkage.

(** ** Silence *)

Section Silence.
Import Pywt AudioDeNoise.
Local Open Scope R_scope.

Lemma silent_repeat n : silent (repeat 0 n).
Proof. induction n; simpl; constructor; auto. Qed.

Lemma silent_eq_repeat l : silent l -> l = repeat 0 (length l).
Proof.
  induction 1 as [|x l Hx _ IH]; simpl; [reflexivity|].
  now rewrite Hx, <- IH.
Qed.

Lemma silent_nth l i : silent l -> nth i l 0 = 0.
Proof.
  intros H. destruct (Nat.lt_ge_cases i (length l)) as [Hi | Hi].
  - unfold silent in H. rewrite Forall_forall in H. apply H. now apply nth_In.
  - now apply nth_overflow.
Qed.

Lemma Rsum_zero {A} (f : A -> R) l :
  (forall x, f x = 0) -> Rsum (map f l) = 0.
Proof.
  intros H. unfold Rsum.
  induction l as [|x l IH]; simpl; [reflexivity|].
  rewrite H, IH. lra.
Qed.

Lemma silent_map_seq (f : nat -> R) a n :
  (forall k, f k = 0) -> silent (map f (seq a n)).
Proof.
  intros H. apply Forall_forall. intros y Hy.
  apply in_map_iff in Hy. destruct Hy as (k & <- & _). apply H.
Qed.

Lemma silent_last l : silent l -> last l 0 = 0.
Proof.
  induction 1 as [|x l Hx Hl IH]; [reflexivity|].
  destruct l; [exact Hx | exact IH].
Qed.

Lemma per_extend_silent x : silent x -> silent (per_extend x).
Proof.
  intros H. unfold per_extend. destruct (Nat.odd (length x)); [|exact H].
  apply Forall_app. split; [exact H|]. constructor; [|constructor].
  now apply silent_last.
Qed.

Lemma per_downsample_silent f x : silent x -> silent (per_downsample f x).
Proof.
  intros H. unfold per_downsample. apply silent_map_seq. intros k.
  unfold per_dot. apply Rsum_zero. intros j.
  rewrite (silent_nth _ _ (per_extend_silent x H)). lra.
Qed.

Lemma silent_firstn n l : silent l -> silent (firstn n l).
Proof. apply Forall_take. Qed.

Lemma silent_skipn n l : silent l -> silent (skipn n l).
Proof. apply Forall_drop. Qed.

Lemma Rleb_refl x : Numpy.Rleb x x = true.
Proof. unfold Numpy.Rleb. destruct (Rle_dec x x); [reflexivity | lra]. Qed.

Lemma sort_repeat x n : Numpy.sort (repeat x n) = repeat x n.
Proof.
  induction n as [|n IH]; [reflexivity|].
  cbn [repeat Numpy.sort fold_right]. fold (Numpy.sort (repeat x n)).
  rewrite IH. destruct n; [reflexivity|].
  cbn [repeat Numpy.insert_sorted]. now rewrite Rleb_refl.
Qed.

Lemma median_repeat_zero n : Numpy.median (repeat 0 (S n)) = Fin 0.
Proof.
  unfold Numpy.median. rewrite sort_repeat, repeat_length.
  destruct (Nat.odd (S n)).
  - f_equal. apply silent_nth, silent_repeat.
  - f_equal. rewrite !(silent_nth _ _ (silent_repeat (S n))). lra.
Qed.

Lemma mad_silent l : silent l -> l <> [] -> mad l = Fin 0.
Proof.
  intros H Hne. rewrite (silent_eq_repeat l H).
  destruct (length l) as [|n] eqn:E; [destruct l; [congruence | discriminate]|].
  unfold mad, Numpy.compressed. rewrite median_repeat_zero.
  rewrite map_repeat, Rminus_diag, Rabs_R0. apply median_repeat_zero.
Qed.

Lemma blocks_fuel_silent fuel bs : forall l,
  silent l -> Forall silent (blocks_fuel fuel bs l).
Proof.
  induction fuel as [|fuel IH]; intros l Hl.
  - destruct l; constructor.
  - destruct l as [|x r]; [constructor|].
    cbn [blocks_fuel]. constructor.
    + now apply silent_firstn.
    + apply IH. now apply silent_skipn.
Qed.

Lemma silent_block_threshold block :
  silent block -> block <> [] ->
  silent (per_downsample (dec_hi db4) block) /\
  mad (per_downsample (dec_hi db4) block) = Fin 0 /\
  universal_threshold (mad (per_downsample (dec_hi db4) block))
                      (length block) = Fin 0.
Proof.
  intros Hs Hne.
  assert (silent (per_downsample (dec_hi db4) block)) as Hd
    by now apply per_downsample_silent.
  assert (mad (per_downsample (dec_hi db4) block) = Fin 0) as Hm.
  { apply mad_silent; [exact Hd|].
    apply length_pos_nonempty. rewrite per_downsample_length.
    apply dwt_coeff_len_pos. destruct block; simpl; [congruence | lia]. }
  split; [exact Hd|]. split; [exact Hm|].
  rewrite Hm. destruct block; [congruence|].
  unfold universal_threshold, nmul. cbn [length]. f_equal. ring.
Qed.

Lemma wavedec_frame_silent ch fr :
  (0 < ch)%nat -> length fr = ch /\ silent fr ->
  exists cs, wavedec db4 fr 2 = Done cs /\
    (silent (last cs []) /\ last cs [] <> []).
Proof.
  intros Hch [Hlen Hs].
  assert (fr <> []) as Hne by (apply length_pos_nonempty; lia).
  eexists. split; [apply (wavedec_level2 db4 fr Hne)|].
  cbn [last]. split; [now apply per_downsample_silent|].
  apply length_pos_nonempty. rewrite per_downsample_length.
  apply dwt_coeff_len_pos. lia.
Qed.

Lemma finest_detail_silent (cs : list (list (list R))) :
  Forall (fun c => silent (last c []) /\ last c [] <> []) cs ->
  cs <> [] ->
  silent (MultiChannel.finest_detail cs) /\ MultiChannel.finest_detail cs <> [].
Proof.
  intros H Hne. unfold MultiChannel.finest_detail. split.
  - clear Hne. induction H as [|c cs [Hc _] _ IH]; [constructor|].
    cbn [map concat]. apply Forall_app. split; assumption.
  - destruct cs as [|c cs]; [congruence|].
    inversion H as [|? ? [_ Hc] _]; subst.
    cbn [map concat]. destruct (last c []); [congruence | discriminate].
Qed.

(** A silent block of a file with several channels: the flattened finest
    detail array is silent, and the scale estimate and the threshold are
    exactly 0. *)
Lemma silent_frames_threshold ch block :
  (0 < ch)%nat -> MultiChannel.well_shaped ch block ->
  Forall silent block -> block <> [] ->
  exists cs,
    MultiChannel.wavedec_frames block = Done cs /\
    silent (MultiChannel.finest_detail cs) /\
    mad (MultiChannel.finest_detail cs) = Fin 0 /\
    MultiChannel.threshold_of block cs = Fin 0.
Proof.
  intros Hch Hw Hs Hne.
  assert (Forall (fun fr => length fr = ch /\ silent fr) block) as HP.
  { unfold MultiChannel.well_shaped in Hw. rewrite Forall_forall in *.
    intros fr Hfr. split; [now apply Hw | now apply Hs]. }
  destruct (each_total (fun fr => wavedec db4 fr 2) _ _ block
              (fun fr H => wavedec_frame_silent ch fr Hch H) HP) as (cs & Hcs & Hlen & HQ).
  exists cs. split; [exact Hcs|].
  assert (cs <> []) as Hcne.
  { apply length_pos_nonempty. rewrite Hlen.
    destruct block; simpl; [congruence | lia]. }
  destruct (finest_detail_silent cs HQ Hcne) as [Hsil Hfne].
  assert (mad (MultiChannel.finest_detail cs) = Fin 0) as Hm
    by now apply mad_silent.
  split; [exact Hsil|]. split; [exact Hm|].
  unfold MultiChannel.threshold_of. rewrite Hm.
  destruct block; [congruence|].
  unfold universal_threshold, nmul. cbn [length]. f_equal. ring.
Qed.

Lemma well_shaped_repeat ch n (fr : list R) :
  length fr = ch -> MultiChannel.well_shaped ch (repeat fr n).
Proof.
  intros H. apply Forall_forall. intros x Hx.
  apply repeat_spec in Hx. now subst x.
Qed.

(** C9 (as amended).  The finest detail array of a silent block is silent
    and its scale estimate and its threshold are exactly 0, in a mono file
    and in a file with several channels.  For a silent mono input whose
    computed block size is positive [deNoise] terminates; the output has
    the input's sample count plus one sample per block of odd length, hence
    the input's own count when the block size and the sample count are
    even.  For a silent input with an even number of channels and a
    positive block size [deNoise] terminates and the output has the input's
    frame count and channel count. *)
Theorem deNoise_silence :
  (forall block, silent block -> block <> [] ->
     silent (per_downsample (dec_hi db4) block) /\
     mad (per_downsample (dec_hi db4) block) = Fin 0 /\
     universal_threshold (mad (per_downsample (dec_hi db4) block))
                         (length block) = Fin 0) /\
  (forall rate n bs,
     BlockSize.blockSize_of (info_of rate (repeat 0 n)) = Done bs ->
     (0 < bs)%Z ->
     exists out,
       deNoise n rate (repeat 0 n) = Some (Done out) /\
       length out =
         (n + length (odd_blocks (blocks (Z.to_nat bs) (repeat 0%R n))))%nat /\
       (Nat.even (Z.to_nat bs) = true -> Nat.even n = true ->
        length out = n)) /\
  (forall ch block, (0 < ch)%nat -> MultiChannel.well_shaped ch block ->
     Forall silent block -> block <> [] ->
     exists cs,
       MultiChannel.wavedec_frames block = Done cs /\
       silent (MultiChannel.finest_detail cs) /\
       mad (MultiChannel.finest_detail cs) = Fin 0 /\
       MultiChannel.threshold_of block cs = Fin 0) /\
  (forall rate ch n bs,
     BlockSize.blockSize_of
       (MultiChannel.info_of rate ch (repeat (repeat 0 ch) n)) = Done bs ->
     (0 < bs)%Z -> (1 < ch)%nat -> Nat.even ch = true ->
     exists out,
       MultiChannel.deNoise n rate ch (repeat (repeat 0 ch) n) = Some (Done out) /\
       length out = n /\
       MultiChannel.well_shaped_out ch out).
Proof.
  split; [exact silent_block_threshold|]. split.
  - intros rate n bs Hbs Hpos.
    destruct (deNoise_blocks_length n rate (repeat 0 n) bs Hbs Hpos)
      as (out & Hout & Hlen); [now rewrite repeat_length|].
    rewrite repeat_length in Hlen.
    exists out. split; [exact Hout|]. split; [exact Hlen|].
    intros Hb Hn. rewrite Hlen, even_blocks_no_odd.
    + simpl. lia.
    + exact Hb.
    + now rewrite repeat_length.
  - split; [exact silent_frames_threshold|].
    intros rate ch n bs Hbs Hpos Hch Hev.
    destruct (deNoise_frames_even n rate ch (repeat (repeat 0 ch) n) bs Hbs Hpos)
      as (out & Hout & Hlen & Hsh); try assumption.
    + lia.
    + apply well_shaped_repeat, repeat_length.
    + now rewrite repeat_length.
    + exists out. rewrite repeat_length in Hlen. auto.
Qed.

Lemma deNoise_silence_witness :
  silent [0; 0] /\ [0; 0] <> [] /\
  mad (per_downsample (dec_hi db4) [0; 0]) = Fin 0 /\
  BlockSize.blockSize_of (info_of 40 (repeat 0 48)) = Done 4%Z /\
  (0 < 4)%Z /\
  (exists out,
    deNoise 48 40 (repeat 0 48) = Some (Done out) /\ length out = 48%nat) /\
  BlockSize.blockSize_of
    (MultiChannel.info_of 30 2 (repeat (repeat 0 2) 30)) = Done 3%Z /\
  (0 < 3)%Z /\ (1 < 2)%nat /\ Nat.even 2 = true /\
  exists out,
    MultiChannel.deNoise 30 30 2 (repeat (repeat 0 2) 30) = Some (Done out) /\
    length out = 30%nat.
Proof.
  assert (silent [0; 0]) as Hs by (repeat constructor).
  assert ([0; 0] <> []) as Hne by discriminate.
  split; [exact Hs|]. split; [exact Hne|].
  split; [exact (proj1 (proj2 (proj1 deNoise_silence [0; 0] Hs Hne)))|].
  assert (BlockSize.blockSize_of (info_of 40 (repeat 0 48)) = Done 4%Z) as H
    by (vm_compute; reflexivity).
  split; [exact H|]. split; [lia|].
  split.
  { destruct (proj1 (proj2 deNoise_silence) 40%Z 48%nat 4%Z H ltac:(lia))
      as (out & Hout & _ & Heven).
    exists out. split; [exact Hout|].
    apply Heven; reflexivity. }
  assert (BlockSize.blockSize_of
            (MultiChannel.info_of 30 2 (repeat (repeat 0 2) 30)) = Done 3%Z) as H2
    by (vm_compute; reflexivity).
  split; [exact H2|]. split; [lia|]. split; [lia|]. split; [reflexivity|].
  destruct (proj2 (proj2 (proj2 deNoise_silence)) 30%Z 2%nat 30%nat 3%Z H2
              ltac:(lia) ltac:(lia) eq_refl) as (out & Hout & Hlen & _).
  exists out. split; [exact Hout | exact Hlen].
Defined.

(** C9, counterexample: 30 silent mono samples at 30 Hz come back as 40
    samples, not 30. *)
Lemma deNoise_silence_longer :
  exists out,
    deNoise 30 30 (repeat 0 30) = Some (Done out) /\
    silent (repeat 0 30) /\
    length (repeat 0 30) = 30%nat /\ length out = 40%nat.
Proof.
  assert (BlockSize.blockSize_of (info_of 30 (repeat 0 30)) = Done 3%Z) as H
    by (vm_compute; reflexivity).
  destruct (deNoise_blocks_length 30 30 (repeat 0 30) 3%Z H ltac:(lia))
    as (out & Hout & Hlen); [simpl; lia|].
  exists out. split; [exact Hout|]. split; [apply silent_repeat|].
  split; [reflexivity|]. rewrite Hlen. reflexivity.
Qed.

End Silence.

(** ** What the threshold makes of silence *)

Section SilenceNan.
Import Pywt AudioDeNoise.
Local Open Scope R_scope.

Lemma nadd_nan_r x : nadd x NaN = NaN.
Proof. now destruct x. Qed.

Lemma nmul_nan_r x : nmul x NaN = NaN.
Proof. now destruct x. Qed.

Lemma nsum_nan l : In NaN l -> nsum l = NaN.
Proof.
  unfold nsum. induction l as [|x l IH]; simpl; [intros []|].
  intros [-> | H]; [reflexivity|].
  rewrite (IH H). apply nadd_nan_r.
Qed.

Lemma all_nan_nth l i : all_nan l -> (i < length l)%nat -> nth i l (Fin 0) = NaN.
Proof.
  intros H Hi. unfold all_nan in H. rewrite Forall_forall in H.
  apply H. now apply nth_In.
Qed.

Lemma all_nan_eq_repeat l : all_nan l -> l = repeat NaN (length l).
Proof.
  induction 1 as [|x l Hx _ IH]; simpl; [reflexivity|].
  now rewrite Hx, <- IH.
Qed.

Lemma soft_zero_zero : soft 0 0 = NaN.
Proof.
  unfold soft. destruct (Req_dec_T 0 0) as [_ | E]; [|contradiction].
  destruct (Rlt_dec 0 0); [lra | reflexivity].
Qed.

Lemma soft_zero_silent l : silent l -> all_nan (map (soft 0) l).
Proof.
  induction 1 as [|x l Hx _ IH]; simpl; constructor; [|exact IH].
  rewrite Hx. apply soft_zero_zero.
Qed.

(** Every output position of the db4 reconstruction receives a product
    with a detail coefficient. *)
Lemma per_upsample_at_nan a d m :
  all_nan d -> length a = length d -> (m < 2 * length a)%nat ->
  per_upsample_at db4 a d m = NaN.
Proof.
  intros Hd Hlen Hm. unfold per_upsample_at.
  pose proof (Nat.div_mod_eq m 2) as Em.
  pose proof (Nat.mod_upper_bound m 2 ltac:(lia)) as Bm.
  apply nsum_nan. apply in_map_iff. exists (m / 2)%nat.
  split; [|apply in_seq; lia].
  apply nsum_nan. apply in_map_iff. exists (3 + m mod 2)%nat.
  split; [|apply in_seq; cbn [length rec_lo db4]; lia].
  cbn [length rec_lo db4].
  assert (per_index (2 * length a)
            (2 * Z.of_nat (m / 2) + Z.of_nat (3 + m mod 2)
             - Z.of_nat (8 / 2) + 1) = m) as ->.
  { unfold per_index.
    replace (2 * Z.of_nat (m / 2) + Z.of_nat (3 + m mod 2)
             - Z.of_nat (8 / 2) + 1)%Z with (Z.of_nat m)
      by (change (8 / 2)%nat with 4%nat; lia).
    rewrite Z.mod_small by lia. apply Nat2Z.id. }
  rewrite Nat.eqb_refl.
  rewrite (all_nan_nth d (m / 2) Hd) by lia.
  now rewrite nmul_nan_r, nadd_nan_r.
Qed.

Lemma idwt_nan a d r :
  all_nan d -> idwt db4 a d = Done r -> all_nan r.
Proof.
  intros Hd. unfold idwt.
  destruct (Nat.eqb (length a) (length d)) eqn:E; [|discriminate].
  apply Nat.eqb_eq in E. intros [= <-].
  apply Forall_forall. intros y Hy.
  apply in_map_iff in Hy. destruct Hy as (m & <- & Hin).
  apply in_seq in Hin. apply per_upsample_at_nan; [exact Hd | exact E | lia].
Qed.

Lemma waverec_loop_nan ds : forall a r,
  Forall all_nan ds -> all_nan a \/ ds <> [] ->
  waverec_loop db4 a ds = Done r -> all_nan r.
Proof.
  induction ds as [|d ds IH]; intros a r Hds Ha; cbn [waverec_loop].
  - intros [= <-]. destruct Ha as [Ha | Ha]; [exact Ha | congruence].
  - inversion Hds as [|? ? Hd Hrest]; subst.
    destruct (Nat.eqb (length a) (length d + 1)).
    + cbn [bind].
      destruct (idwt db4 (firstn (length d) a) d) as [a''|] eqn:E;
        cbn [bind]; [|discriminate].
      apply IH; [exact Hrest|]. left. exact (idwt_nan _ _ _ Hd E).
    + destruct (Nat.eqb (length a) (length d)); cbn [bind]; [|discriminate].
      destruct (idwt db4 a d) as [a''|] eqn:E; cbn [bind]; [|discriminate].
      apply IH; [exact Hrest|]. left. exact (idwt_nan _ _ _ Hd E).
Qed.

(** A silent block has a threshold of 0 and detail coefficients of 0;
    [0 / 0] in the soft threshold makes them [nan], and so every sample
    written for the block. *)
Lemma process_block_silent block :
  silent block -> block <> [] ->
  process_block block = Done (repeat NaN (2 * dwt_coeff_len (length block))).
Proof.
  intros Hs Hne.
  destruct (process_block_nonempty block Hne) as (clean & Hc & Hlen).
  rewrite Hc. f_equal. rewrite <- Hlen. apply all_nan_eq_repeat.
  unfold process_block in Hc.
  destruct (shrunk_coefficients_nonempty block Hne) as (sigma & Hm & Hsh).
  destruct (silent_block_threshold block Hs Hne) as (Hd1 & Hm0 & _).
  assert (sigma = 0) as -> by congruence.
  rewrite Hsh in Hc. cbn [bind] in Hc. rewrite Rmult_0_l in Hc.
  unfold waverec in Hc.
  eapply waverec_loop_nan; cycle 2.
  - exact Hc.
  - repeat constructor; apply soft_zero_silent; [|exact Hd1].
    now apply per_downsample_silent, per_downsample_silent.
  - right. discriminate.
Qed.

Lemma processed_silent bl : forall cleans,
  Forall silent bl -> Forall (fun b => b <> []) bl ->
  Forall2 (fun b c => process_block b = Done c) bl cleans ->
  all_nan (concat cleans).
Proof.
  induction bl as [|b bl IH]; intros cleans Hs Hne HF; inversion HF; subst.
  - constructor.
  - inversion Hs; inversion Hne; subst.
    cbn [concat]. apply Forall_app. split; [|now apply IH].
    rewrite process_block_silent in H1 by assumption.
    injection H1 as <-. apply Forall_forall. intros y Hy.
    now apply repeat_spec in Hy.
Qed.

(** C5, counterexample: a block holding the one sample 0 is not passed
    through: two samples are handed to [of.write], both [nan]. *)
Lemma one_sample_block_not_passed_through :
  length [0%R] = 1%nat /\
  process_block [0%R] = Done [NaN; NaN] /\
  process_block [0%R] <> Done [Fin 0].
Proof.
  assert (process_block [0%R] = Done [NaN; NaN]) as H.
  { apply (process_block_silent [0%R]); [repeat constructor | discriminate]. }
  split; [reflexivity|]. split; [exact H|]. rewrite H. discriminate.
Qed.

(** Silence in, [nan] out: for a silent input whose computed block size is
    positive every sample [deNoise] writes is [nan]. *)
Lemma deNoise_silence_is_nan fuel rate n bs :
  BlockSize.blockSize_of (info_of rate (repeat 0 n)) = Done bs ->
  (0 < bs)%Z -> (n <= fuel)%nat ->
  exists out, deNoise fuel rate (repeat 0 n) = Some (Done out) /\ all_nan out.
Proof.
  intros Hbs Hpos Hfuel.
  assert (length (repeat 0%R n) <= fuel)%nat as Hf by now rewrite repeat_length.
  destruct (deNoise_blocks fuel rate _ bs Hbs Hpos Hf) as (cleans & HF & ->).
  eexists. split; [reflexivity|].
  eapply processed_silent; [| |exact HF].
  - apply blocks_fuel_silent, silent_repeat.
  - apply blocks_nonempty. lia.
Qed.

End SilenceNan.

(** ** The noise-profile entry points *)

Section ProfileProperties.
Import Profile.

Variable getNoiseDataPredicted : list R -> list R.

Lemma exists_present w path f :
  files w !! path = Some f -> exists_ w path = true.
Proof. intros H. unfold exists_. apply bool_decide_eq_true_2. eauto. Qed.

Lemma exists_absent w path :
  files w !! path = None -> exists_ w path = false.
Proof.
  intros H. unfold exists_. apply bool_decide_eq_false_2.
  rewrite H. intros [? ?]. discriminate.
Qed.

Lemma sf_write_writable w path data rate :
  path ∉ unwritable w ->
  sf_write w path data rate =
    inr {| files := <[path := Audio data rate]> (files w);
           unwritable := unwritable w |}.
Proof. intros H. unfold sf_write. now rewrite bool_decide_eq_false_2. Qed.

Lemma sf_write_unwritable w path data rate :
  path ∈ unwritable w ->
  sf_write w path data rate = inl (SoundFileError "System error.").
Proof. intros H. unfold sf_write. now rewrite bool_decide_eq_true_2. Qed.

(** C8 (as amended).  [generateNoiseProfileTo] raises [FileNotFoundError]
    for a missing input file; a file that cannot be decoded and an output
    path that cannot be written both raise [RuntimeError], whose message
    ends with the library's diagnostic and whose cause is the library's
    exception.  In each case the file store is left as it was.  Of these
    only [FileNotFoundError] is an [IOError]. *)
Theorem generateNoiseProfileTo_errors :
  (forall w noiseFile outputFile,
     files w !! noiseFile = None ->
     generateNoiseProfileTo getNoiseDataPredicted w noiseFile outputFile =
       (w, Raise (FileNotFoundError (not_found_msg noiseFile)))) /\
  (forall w noiseFile outputFile diagnostic,
     files w !! noiseFile = Some (Corrupt diagnostic) ->
     let exc := SoundFileError diagnostic in
     generateNoiseProfileTo getNoiseDataPredicted w noiseFile outputFile =
       (w, Raise (RuntimeError (read_msg noiseFile exc) exc))) /\
  (forall w noiseFile outputFile data rate,
     files w !! noiseFile = Some (Audio data rate) ->
     outputFile ∈ unwritable w ->
     let exc := SoundFileError "System error." in
     generateNoiseProfileTo getNoiseDataPredicted w noiseFile outputFile =
       (w, Raise (RuntimeError (write_msg outputFile exc) exc))) /\
  (forall msg, is_FileNotFoundError (FileNotFoundError msg) = true /\
               is_IOError (FileNotFoundError msg) = true) /\
  (forall msg exc, is_RuntimeError (RuntimeError msg exc) = true /\
                   is_IOError (RuntimeError msg exc) = false /\
                   cause (RuntimeError msg exc) = Some exc).
Proof.
  split; [|split; [|split; [|split]]].
  - intros w noiseFile outputFile H. unfold generateNoiseProfileTo.
    now rewrite (exists_absent w noiseFile H).
  - intros w noiseFile outputFile diagnostic H exc.
    unfold generateNoiseProfileTo.
    rewrite (exists_present w noiseFile _ H). cbn [negb].
    unfold sf_read. now rewrite H.
  - intros w noiseFile outputFile data rate H Hw exc.
    unfold generateNoiseProfileTo.
    rewrite (exists_present w noiseFile _ H). cbn [negb].
    unfold sf_read. rewrite H.
    now rewrite (sf_write_unwritable w outputFile _ rate Hw).
  - intros msg. split; reflexivity.
  - intros msg exc. repeat split; reflexivity.
Qed.

(** C10 (as amended).  For an existing, readable noise file at a writable
    path, [generateNoiseProfile] returns with that very file replaced by
    the predicted noise at the same rate, every other file untouched.  When
    the path cannot be written, the call raises the library's own exception
    and the noise file is left as it was.  [generateNoiseProfileTo] with a
    separate writable output path puts the predicted noise there and leaves
    the input file as it was. *)
Theorem generateNoiseProfile_overwrites :
  forall w noiseFile data rate,
    files w !! noiseFile = Some (Audio data rate) ->
    (noiseFile ∉ unwritable w ->
     exists w',
       generateNoiseProfile getNoiseDataPredicted w noiseFile = (w', Done tt) /\
       files w' !! noiseFile = Some (Audio (getNoiseDataPredicted data) rate) /\
       (forall other, other <> noiseFile -> files w' !! other = files w !! other)) /\
    (noiseFile ∈ unwritable w ->
     exists exc,
       generateNoiseProfile getNoiseDataPredicted w noiseFile =
         (w, Raise (Uncaught exc))) /\
    (forall outputFile,
       outputFile <> noiseFile -> outputFile ∉ unwritable w ->
       exists w',
         generateNoiseProfileTo getNoiseDataPredicted w noiseFile outputFile =
           (w', Done tt) /\
         files w' !! noiseFile = Some (Audio data rate) /\
         files w' !! outputFile =
           Some (Audio (getNoiseDataPredicted data) rate)).
Proof.
  intros w noiseFile data rate H. split; [|split].
  - intros Hw. eexists. unfold generateNoiseProfile.
    rewrite (exists_present w noiseFile _ H). cbn [negb].
    unfold sf_read. rewrite H.
    rewrite (sf_write_writable w noiseFile _ rate Hw).
    split; [reflexivity|]. cbn [files]. split.
    + apply lookup_insert_eq.
    + intros other Hne. now apply lookup_insert_ne.
  - intros Hw. eexists. unfold generateNoiseProfile.
    rewrite (exists_present w noiseFile _ H). cbn [negb].
    unfold sf_read. rewrite H.
    now rewrite (sf_write_unwritable w noiseFile _ rate Hw).
  - intros outputFile Hne Hwo. eexists. unfold generateNoiseProfileTo.
    rewrite (exists_present w noiseFile _ H). cbn [negb].
    unfold sf_read. rewrite H.
    rewrite (sf_write_writable w outputFile _ rate Hwo).
    split; [reflexivity|]. cbn [files]. split.
    + rewrite lookup_insert_ne by exact Hne. exact H.
    + apply lookup_insert_eq.
Qed.

End ProfileProperties.

Section ProfileExamples.
Import Profile.

Lemma generateNoiseProfileTo_errors_witness :
  files demo_store !! "absent.wav" = None /\
  generateNoiseProfileTo (@rev R) demo_store "absent.wav" "out.wav" =
    (demo_store, Raise (FileNotFoundError (not_found_msg "absent.wav"))) /\
  files demo_store !! "notes.txt" = Some (Corrupt "Format not recognised.") /\
  generateNoiseProfileTo (@rev R) demo_store "notes.txt" "out.wav" =
    (demo_store,
     Raise (RuntimeError
              (read_msg "notes.txt" (SoundFileError "Format not recognised."))
              (SoundFileError "Format not recognised."))) /\
  files demo_store !! "white_noise_test.wav" = Some (Audio [1; -1; 2]%R 44100) /\
  "/proc/out.wav" ∈ unwritable demo_store /\
  generateNoiseProfileTo (@rev R) demo_store "white_noise_test.wav" "/proc/out.wav" =
    (demo_store,
     Raise (RuntimeError
              (write_msg "/proc/out.wav" (SoundFileError "System error."))
              (SoundFileError "System error."))).
Proof.
  pose proof (generateNoiseProfileTo_errors (@rev R)) as (H1 & H2 & H3 & _).
  assert (files demo_store !! "absent.wav" = None) as A1 by reflexivity.
  assert (files demo_store !! "notes.txt" = Some (Corrupt "Format not recognised."))
    as A2 by reflexivity.
  assert (files demo_store !! "white_noise_test.wav" = Some (Audio [1; -1; 2]%R 44100))
    as A3 by reflexivity.
  assert ("/proc/out.wav" ∈ unwritable demo_store) as A4
    by (unfold demo_store; cbn [unwritable]; set_solver).
  split; [exact A1|]. split; [exact (H1 _ _ "out.wav" A1)|].
  split; [exact A2|]. split; [exact (H2 _ _ "out.wav" _ A2)|].
  split; [exact A3|]. split; [exact A4|].
  exact (H3 _ _ _ _ _ A3 A4).
Defined.

(** C8, counterexample: a file that exists but is not audio makes
    [generateNoiseProfileTo] raise a [RuntimeError], which is not an
    [IOError]; the library's own exception does not reach the caller. *)
Lemma unreadable_input_not_IOError :
  generateNoiseProfileTo (@rev R) demo_store "notes.txt" "out.wav" =
    (demo_store,
     Raise (RuntimeError
              "Could not read noise sample 'notes.txt': Format not recognised."
              (SoundFileError "Format not recognised."))) /\
  is_IOError
    (RuntimeError
       "Could not read noise sample 'notes.txt': Format not recognised."
       (SoundFileError "Format not recognised.")) = false.
Proof. split; reflexivity. Qed.

Lemma generateNoiseProfile_overwrites_witness :
  files demo_store !! "white_noise_test.wav" = Some (Audio [1; -1; 2]%R 44100) /\
  ("white_noise_test.wav" ∉ unwritable demo_store) /\
  (exists w',
     generateNoiseProfile (@rev R) demo_store "white_noise_test.wav" = (w', Done tt) /\
     files w' !! "white_noise_test.wav" = Some (Audio [2; -1; 1]%R 44100)) /\
  "out.wav" <> "white_noise_test.wav" /\
  ("out.wav" ∉ unwritable demo_store) /\
  (exists w',
     generateNoiseProfileTo (@rev R) demo_store "white_noise_test.wav" "out.wav" =
       (w', Done tt) /\
     files w' !! "white_noise_test.wav" = Some (Audio [1; -1; 2]%R 44100) /\
     files w' !! "out.wav" = Some (Audio [2; -1; 1]%R 44100)) /\
  files Examples.readonly_store !! "white_noise_test.wav" =
    Some (Audio [1; -1; 2]%R 44100) /\
  ("white_noise_test.wav" ∈ unwritable Examples.readonly_store) /\
  (exists exc,
     generateNoiseProfile (@rev R) Examples.readonly_store "white_noise_test.wav" =
       (Examples.readonly_store, Raise (Uncaught exc))).
Proof.
  assert (files demo_store !! "white_noise_test.wav" = Some (Audio [1; -1; 2]%R 44100))
    as A1 by reflexivity.
  assert ("white_noise_test.wav" ∉ unwritable demo_store) as A2
    by (unfold demo_store; cbn [unwritable]; set_solver).
  assert ("out.wav" <> "white_noise_test.wav") as A3 by discriminate.
  assert ("out.wav" ∉ unwritable demo_store) as A4
    by (unfold demo_store; cbn [unwritable]; set_solver).
  assert (files Examples.readonly_store !! "white_noise_test.wav" =
            Some (Audio [1; -1; 2]%R 44100)) as A5 by reflexivity.
  assert ("white_noise_test.wav" ∈ unwritable Examples.readonly_store) as A6
    by (unfold Examples.readonly_store; cbn [unwritable]; set_solver).
  destruct (generateNoiseProfile_overwrites (@rev R) demo_store _ _ _ A1)
    as (Hover & _ & HTo).
  destruct (Hover A2) as (w1 & R1 & L1 & _).
  destruct (HTo "out.wav" A3 A4) as (w2 & R2 & L2 & L3).
  split; [exact A1|]. split; [exact A2|].
  split; [exists w1; split; [exact R1 | exact L1]|].
  split; [exact A3|]. split; [exact A4|].
  split; [exists w2; split; [exact R2|]; split; [exact L2 | exact L3]|].
  split; [exact A5|]. split; [exact A6|].
  exact (proj1 (proj2 (generateNoiseProfile_overwrites (@rev R)
                         Examples.readonly_store _ _ _ A5)) A6).
Defined.

(** C10, counterexample: a noise file that exists and can be read, at a path
    that cannot be written: [generateNoiseProfile] raises the library's
    exception and the file holds what it held before. *)
Lemma generateNoiseProfile_readonly_not_overwritten :
  files Examples.readonly_store !! "white_noise_test.wav" =
    Some (Audio [1; -1; 2]%R 44100) /\
  generateNoiseProfile (@rev R) Examples.readonly_store "white_noise_test.wav" =
    (Examples.readonly_store, Raise (Uncaught (SoundFileError "System error."))) /\
  files (fst (generateNoiseProfile (@rev R) Examples.readonly_store
                "white_noise_test.wav")) !! "white_noise_test.wav" =
    Some (Audio [1; -1; 2]%R 44100).
Proof.
  assert (files Examples.readonly_store !! "white_noise_test.wav" =
            Some (Audio [1; -1; 2]%R 44100)) as A by reflexivity.
  assert ("white_noise_test.wav" ∈ unwritable Examples.readonly_store) as Hw
    by (unfold Examples.readonly_store; cbn [unwritable]; set_solver).
  assert (generateNoiseProfile (@rev R) Examples.readonly_store
            "white_noise_test.wav" =
          (Examples.readonly_store,
           Raise (Uncaught (SoundFileError "System error.")))) as E.
  { unfold generateNoiseProfile.
    rewrite (exists_present _ _ _ A). cbn [negb].
    unfold sf_read. rewrite A.
    now rewrite (sf_write_unwritable _ _ _ 44100%Z Hw). }
  split; [exact A|]. split; [exact E|]. rewrite E. exact A.
Qed.

End ProfileExamples.

(** ** More on the noise-profile entry points *)

Section ProfileMore.
Import Profile.

Variable getNoiseDataPredicted : list R -> list R.

(** X1.  [generateNoiseProfile] raises [FileNotFoundError] for a missing
    file and [RuntimeError], with the library's exception as cause, for a
    file it cannot decode; a failure to write the file back is not wrapped:
    the library's own exception reaches the caller.  The store is unchanged
    in all three cases. *)
Theorem generateNoiseProfile_errors :
  (forall w noiseFile,
     files w !! noiseFile = None ->
     generateNoiseProfile getNoiseDataPredicted w noiseFile =
       (w, Raise (FileNotFoundError (not_found_msg noiseFile)))) /\
  (forall w noiseFile diagnostic,
     files w !! noiseFile = Some (Corrupt diagnostic) ->
     generateNoiseProfile getNoiseDataPredicted w noiseFile =
       (w, Raise (RuntimeError (read_msg noiseFile (SoundFileError diagnostic))
                               (SoundFileError diagnostic)))) /\
  (forall w noiseFile data rate,
     files w !! noiseFile = Some (Audio data rate) ->
     noiseFile ∈ unwritable w ->
     generateNoiseProfile getNoiseDataPredicted w noiseFile =
       (w, Raise (Uncaught (SoundFileError "System error.")))).
Proof.
  split; [|split].
  - intros w noiseFile H. unfold generateNoiseProfile.
    now rewrite (exists_absent w noiseFile H).
  - intros w noiseFile diagnostic H. unfold generateNoiseProfile.
    rewrite (exists_present w noiseFile _ H). cbn [negb].
    unfold sf_read. now rewrite H.
  - intros w noiseFile data rate H Hw. unfold generateNoiseProfile.
    rewrite (exists_present w noiseFile _ H). cbn [negb].
    unfold sf_read. rewrite H.
    now rewrite (sf_write_unwritable w noiseFile _ rate Hw).
Qed.

(** X2.  Given the same path twice, [generateNoiseProfileTo] is
    [generateNoiseProfile]: whenever that path can be written, the two calls
    end alike and leave the same store, so the sample is replaced by the
    predicted noise. *)
Theorem generateNoiseProfileTo_same_path :
  forall w noiseFile,
    noiseFile ∉ unwritable w ->
    generateNoiseProfileTo getNoiseDataPredicted w noiseFile noiseFile =
      generateNoiseProfile getNoiseDataPredicted w noiseFile /\
    (forall data rate,
       files w !! noiseFile = Some (Audio data rate) ->
       files (fst (generateNoiseProfileTo getNoiseDataPredicted w noiseFile noiseFile))
         !! noiseFile = Some (Audio (getNoiseDataPredicted data) rate)).
Proof.
  intros w noiseFile Hw. split.
  - unfold generateNoiseProfileTo, generateNoiseProfile.
    destruct (negb (exists_ w noiseFile)); [reflexivity|].
    destruct (sf_read w noiseFile) as [exc | [data rate]]; [reflexivity|].
    now rewrite (sf_write_writable w noiseFile _ rate Hw).
  - intros data rate H. unfold generateNoiseProfileTo.
    rewrite (exists_present w noiseFile _ H). cbn [negb].
    unfold sf_read. rewrite H.
    rewrite (sf_write_writable w noiseFile _ rate Hw). cbn [fst files].
    apply lookup_insert_eq.
Qed.

Lemma generateNoiseProfileTo_cases w noiseFile outputFile :
  generateNoiseProfileTo getNoiseDataPredicted w noiseFile outputFile =
    (w, snd (generateNoiseProfileTo getNoiseDataPredicted w noiseFile outputFile))
  \/ exists data rate,
       files w !! noiseFile = Some (Audio data rate) /\
       generateNoiseProfileTo getNoiseDataPredicted w noiseFile outputFile =
         ({| files := <[outputFile := Audio (getNoiseDataPredicted data) rate]> (files w);
             unwritable := unwritable w |}, Done tt).
Proof.
  unfold generateNoiseProfileTo.
  destruct (negb (exists_ w noiseFile)); [now left|].
  unfold sf_read. destruct (files w !! noiseFile) as [[data rate | diag]|] eqn:E;
    [|now left | now left].
  unfold sf_write. destruct (bool_decide (outputFile ∈ unwritable w)); [now left|].
  right. exists data, rate. split; reflexivity.
Qed.

Lemma generateNoiseProfile_cases w noiseFile :
  generateNoiseProfile getNoiseDataPredicted w noiseFile =
    (w, snd (generateNoiseProfile getNoiseDataPredicted w noiseFile))
  \/ exists data rate,
       files w !! noiseFile = Some (Audio data rate) /\
       generateNoiseProfile getNoiseDataPredicted w noiseFile =
         ({| files := <[noiseFile := Audio (getNoiseDataPredicted data) rate]> (files w);
             unwritable := unwritable w |}, Done tt).
Proof.
  unfold generateNoiseProfile.
  destruct (negb (exists_ w noiseFile)); [now left|].
  unfold sf_read. destruct (files w !! noiseFile) as [[data rate | diag]|] eqn:E;
    [|now left | now left].
  unfold sf_write. destruct (bool_decide (noiseFile ∈ unwritable w)); [now left|].
  right. exists data, rate. split; reflexivity.
Qed.

(** X3.  Whatever its arguments and however it ends,
    [generateNoiseProfileTo] changes no path but [outputFile], deletes no
    file and leaves the set of unwritable paths alone; when it raises, the
    store is exactly the one it was given. *)
Theorem generateNoiseProfileTo_frame :
  forall w noiseFile outputFile,
    let res := generateNoiseProfileTo getNoiseDataPredicted w noiseFile outputFile in
    unwritable (fst res) = unwritable w /\
    (forall other, other <> outputFile ->
       files (fst res) !! other = files w !! other) /\
    (forall path, exists_ w path = true -> exists_ (fst res) path = true) /\
    (forall e, snd res = Raise e -> fst res = w).
Proof.
  intros w noiseFile outputFile res. unfold res. clear res.
  destruct (generateNoiseProfileTo_cases w noiseFile outputFile)
    as [E | (data & rate & _ & E)]; rewrite E; cbn [fst snd files unwritable].
  - repeat split; auto.
  - split; [reflexivity|]. split; [|split].
    + intros other Hne. now apply lookup_insert_ne.
    + intros path. unfold exists_. cbn [files].
      intros H. apply bool_decide_eq_true_1 in H.
      apply bool_decide_eq_true_2.
      destruct (decide (outputFile = path)) as [-> | Hne].
      * rewrite lookup_insert_eq. eauto.
      * now rewrite lookup_insert_ne.
    + discriminate.
Qed.

(** X4.  Run twice on a readable, writable sample, [generateNoiseProfile]
    leaves the prediction of the prediction in its place: each call works on
    what the call before wrote. *)
Theorem generateNoiseProfile_twice :
  forall w noiseFile data rate,
    files w !! noiseFile = Some (Audio data rate) ->
    noiseFile ∉ unwritable w ->
    let w1 := fst (generateNoiseProfile getNoiseDataPredicted w noiseFile) in
    let res := generateNoiseProfile getNoiseDataPredicted w1 noiseFile in
    snd res = Done tt /\
    files (fst res) !! noiseFile =
      Some (Audio (getNoiseDataPredicted (getNoiseDataPredicted data)) rate).
Proof.
  intros w noiseFile data rate H Hw w1 res.
  assert (generateNoiseProfile getNoiseDataPredicted w noiseFile =
            ({| files := <[noiseFile := Audio (getNoiseDataPredicted data) rate]> (files w);
                unwritable := unwritable w |}, Done tt)) as E1.
  { unfold generateNoiseProfile.
    rewrite (exists_present w noiseFile _ H). cbn [negb].
    unfold sf_read. rewrite H.
    now rewrite (sf_write_writable w noiseFile _ rate Hw). }
  unfold res, w1. rewrite E1. cbn [fst].
  set (w' := {| files := _; unwritable := _ |}).
  assert (files w' !! noiseFile = Some (Audio (getNoiseDataPredicted data) rate)) as H'
    by (unfold w'; cbn [files]; apply lookup_insert_eq).
  unfold generateNoiseProfile.
  rewrite (exists_present w' noiseFile _ H'). cbn [negb].
  unfold sf_read. rewrite H'.
  rewrite (sf_write_writable w' noiseFile _ rate) by exact Hw.
  cbn [fst snd files]. split; [reflexivity|]. apply lookup_insert_eq.
Qed.

End ProfileMore.

(** ** The engine object and the script *)

Section EngineScript.
Import Profile.

Variable getNoiseDataPredicted : list R -> list R.

(** X5.  The two entry points act on the store and end exactly as their
    store-only descriptions say, never touch the input path held by the
    object, and replace the profile field as soon as the sample has been
    read: it holds the sample's data after a success and also after a
    failed write, and keeps its old value when the sample is missing or
    cannot be decoded. *)
Theorem profile_field_updates :
  forall self w noiseFile outputFile,
    let res := Engine.generateNoiseProfileTo getNoiseDataPredicted
                 self w noiseFile outputFile in
    let res' := Engine.generateNoiseProfile getNoiseDataPredicted
                  self w noiseFile in
    (snd (fst res), snd res) =
      generateNoiseProfileTo getNoiseDataPredicted w noiseFile outputFile /\
    (snd (fst res'), snd res') =
      generateNoiseProfile getNoiseDataPredicted w noiseFile /\
    Engine.inputFile (fst (fst res)) = Engine.inputFile self /\
    Engine.inputFile (fst (fst res')) = Engine.inputFile self /\
    (forall data rate,
       files w !! noiseFile = Some (Audio data rate) ->
       Engine.noiseProfile (fst (fst res)) = Some data /\
       Engine.noiseProfile (fst (fst res')) = Some data) /\
    ((forall data rate, files w !! noiseFile <> Some (Audio data rate)) ->
       Engine.noiseProfile (fst (fst res)) = Engine.noiseProfile self /\
       Engine.noiseProfile (fst (fst res')) = Engine.noiseProfile self).
Proof.
  intros self w noiseFile outputFile res res'. unfold res, res'. clear res res'.
  unfold Engine.generateNoiseProfileTo, Engine.generateNoiseProfile,
    generateNoiseProfileTo, generateNoiseProfile.
  unfold exists_, sf_read.
  destruct (files w !! noiseFile) as [[data rate | diag]|] eqn:E.
  - rewrite bool_decide_eq_true_2 by eauto. cbn [negb].
    unfold sf_write.
    destruct (bool_decide (outputFile ∈ unwritable w)),
             (bool_decide (noiseFile ∈ unwritable w));
      cbn [fst snd Engine.inputFile Engine.noiseProfile Engine.set_profile];
      (do 4 (split; [reflexivity|]); split;
       [ intros d r [= <- <-]; split; reflexivity
       | intros H; exfalso; exact (H data rate eq_refl) ]).
  - rewrite bool_decide_eq_true_2 by eauto. cbn [negb fst snd].
    do 4 (split; [reflexivity|]). split.
    + intros d r H. discriminate.
    + intros _. split; reflexivity.
  - rewrite bool_decide_eq_false_2 by (intros [? ?]; discriminate).
    cbn [negb fst snd]. do 4 (split; [reflexivity|]). split.
    + intros d r H. discriminate.
    + intros _. split; reflexivity.
Qed.

Lemma generateNoiseProfileTo_success w noiseFile outputFile data rate :
  files w !! noiseFile = Some (Audio data rate) ->
  outputFile ∉ unwritable w ->
  generateNoiseProfileTo getNoiseDataPredicted w noiseFile outputFile =
    ({| files := <[outputFile := Audio (getNoiseDataPredicted data) rate]> (files w);
        unwritable := unwritable w |}, Done tt).
Proof.
  intros H Hw. unfold generateNoiseProfileTo.
  rewrite (exists_present w noiseFile _ H). cbn [negb].
  unfold sf_read. rewrite H.
  now rewrite (sf_write_writable w outputFile _ rate Hw).
Qed.

Lemma script_paths_differ :
  Script.REQUESTED_NOISE_SAMPLE <> Script.OUTPUT_NOISE /\
  Script.FALLBACK_NOISE_SAMPLE <> Script.OUTPUT_NOISE.
Proof. split; discriminate. Qed.

(** X6.  The last step of [audio_denoiser.py] analyses the requested noise
    sample when that file exists and the fallback sample otherwise, writes
    the prediction of that very sample to the output path, and leaves both
    sample files as they were; when neither sample exists it raises
    [FileNotFoundError] naming the fallback. *)
Theorem script_noise_sample :
  forall w,
    let res := Script.noise_profile_step getNoiseDataPredicted w in
    files (fst res) !! Script.REQUESTED_NOISE_SAMPLE =
      files w !! Script.REQUESTED_NOISE_SAMPLE /\
    files (fst res) !! Script.FALLBACK_NOISE_SAMPLE =
      files w !! Script.FALLBACK_NOISE_SAMPLE /\
    (files w !! Script.REQUESTED_NOISE_SAMPLE = None ->
     files w !! Script.FALLBACK_NOISE_SAMPLE = None ->
     res = (w, Raise (FileNotFoundError
                        (not_found_msg Script.FALLBACK_NOISE_SAMPLE)))) /\
    (forall data rate,
       files w !! Script.REQUESTED_NOISE_SAMPLE = Some (Audio data rate) ->
       Script.OUTPUT_NOISE ∉ unwritable w ->
       snd res = Done tt /\
       files (fst res) !! Script.OUTPUT_NOISE =
         Some (Audio (getNoiseDataPredicted data) rate)) /\
    (forall data rate,
       files w !! Script.REQUESTED_NOISE_SAMPLE = None ->
       files w !! Script.FALLBACK_NOISE_SAMPLE = Some (Audio data rate) ->
       Script.OUTPUT_NOISE ∉ unwritable w ->
       snd res = Done tt /\
       files (fst res) !! Script.OUTPUT_NOISE =
         Some (Audio (getNoiseDataPredicted data) rate)).
Proof.
  intros w res. unfold res. clear res. unfold Script.noise_profile_step.
  destruct script_paths_differ as [Hr Hf].
  split; [|split; [|split; [|split]]].
  - destruct (generateNoiseProfileTo_cases getNoiseDataPredicted w
                (Script.noise_sample w) Script.OUTPUT_NOISE)
      as [E | (d & r & _ & E)]; rewrite E; cbn [fst files]; [reflexivity|].
    apply lookup_insert_ne. congruence.
  - destruct (generateNoiseProfileTo_cases getNoiseDataPredicted w
                (Script.noise_sample w) Script.OUTPUT_NOISE)
      as [E | (d & r & _ & E)]; rewrite E; cbn [fst files]; [reflexivity|].
    apply lookup_insert_ne. congruence.
  - intros H1 H2. unfold Script.noise_sample.
    rewrite (exists_absent w _ H1). unfold generateNoiseProfileTo.
    now rewrite (exists_absent w _ H2).
  - intros data rate H Hw. unfold Script.noise_sample.
    rewrite (exists_present w _ _ H).
    rewrite (generateNoiseProfileTo_success w _ _ data rate H Hw).
    cbn [fst snd files]. split; [reflexivity | apply lookup_insert_eq].
  - intros data rate H1 H2 Hw. unfold Script.noise_sample.
    rewrite (exists_absent w _ H1).
    rewrite (generateNoiseProfileTo_success w _ _ data rate H2 Hw).
    cbn [fst snd files]. split; [reflexivity | apply lookup_insert_eq].
Qed.

End EngineScript.

Section MoreProfileExamples.
Import Profile Examples.

Lemma generateNoiseProfile_errors_witness :
  files demo_store !! "absent.wav" = None /\
  generateNoiseProfile (@rev R) demo_store "absent.wav" =
    (demo_store, Raise (FileNotFoundError (not_found_msg "absent.wav"))) /\
  files demo_store !! "notes.txt" = Some (Corrupt "Format not recognised.") /\
  generateNoiseProfile (@rev R) demo_store "notes.txt" =
    (demo_store,
     Raise (RuntimeError
              (read_msg "notes.txt" (SoundFileError "Format not recognised."))
              (SoundFileError "Format not recognised."))) /\
  files readonly_store !! "white_noise_test.wav" =
    Some (Audio [1; -1; 2]%R 44100) /\
  ("white_noise_test.wav" ∈ unwritable readonly_store) /\
  generateNoiseProfile (@rev R) readonly_store "white_noise_test.wav" =
    (readonly_store, Raise (Uncaught (SoundFileError "System error."))).
Proof.
  pose proof (generateNoiseProfile_errors (@rev R)) as (H1 & H2 & H3).
  assert (files demo_store !! "absent.wav" = None) as A1 by reflexivity.
  assert (files demo_store !! "notes.txt" = Some (Corrupt "Format not recognised."))
    as A2 by reflexivity.
  assert (files readonly_store !! "white_noise_test.wav" =
            Some (Audio [1; -1; 2]%R 44100)) as A3 by reflexivity.
  assert ("white_noise_test.wav" ∈ unwritable readonly_store) as A4
    by (unfold readonly_store; cbn [unwritable]; set_solver).
  split; [exact A1|]. split; [exact (H1 _ _ A1)|].
  split; [exact A2|]. split; [exact (H2 _ _ _ A2)|].
  split; [exact A3|]. split; [exact A4|].
  exact (H3 _ _ _ _ A3 A4).
Defined.

Lemma generateNoiseProfileTo_same_path_witness :
  ("white_noise_test.wav" ∉ unwritable demo_store) /\
  generateNoiseProfileTo (@rev R) demo_store
      "white_noise_test.wav" "white_noise_test.wav" =
    generateNoiseProfile (@rev R) demo_store "white_noise_test.wav" /\
  files demo_store !! "white_noise_test.wav" = Some (Audio [1; -1; 2]%R 44100) /\
  files (fst (generateNoiseProfileTo (@rev R) demo_store
                "white_noise_test.wav" "white_noise_test.wav"))
    !! "white_noise_test.wav" = Some (Audio [2; -1; 1]%R 44100).
Proof.
  assert ("white_noise_test.wav" ∉ unwritable demo_store) as A1
    by (unfold demo_store; cbn [unwritable]; set_solver).
  assert (files demo_store !! "white_noise_test.wav" =
            Some (Audio [1; -1; 2]%R 44100)) as A2 by reflexivity.
  destruct (generateNoiseProfileTo_same_path (@rev R) demo_store _ A1) as [E Hover].
  split; [exact A1|]. split; [exact E|]. split; [exact A2|].
  exact (Hover _ _ A2).
Defined.

Lemma generateNoiseProfileTo_frame_witness :
  "notes.txt" <> "out.wav" /\
  files (fst (generateNoiseProfileTo (@rev R) demo_store
                "white_noise_test.wav" "out.wav")) !! "notes.txt" =
    files demo_store !! "notes.txt" /\
  exists_ demo_store "notes.txt" = true /\
  exists_ (fst (generateNoiseProfileTo (@rev R) demo_store
                  "white_noise_test.wav" "out.wav")) "notes.txt" = true /\
  snd (generateNoiseProfileTo (@rev R) demo_store "notes.txt" "out.wav") =
    Raise (RuntimeError
             (read_msg "notes.txt" (SoundFileError "Format not recognised."))
             (SoundFileError "Format not recognised.")) /\
  fst (generateNoiseProfileTo (@rev R) demo_store "notes.txt" "out.wav") =
    demo_store.
Proof.
  assert ("notes.txt" <> "out.wav") as A1 by discriminate.
  assert (exists_ demo_store "notes.txt" = true) as A2 by reflexivity.
  destruct (generateNoiseProfileTo_frame (@rev R) demo_store
              "white_noise_test.wav" "out.wav") as (_ & Hother & Hkeep & _).
  destruct (generateNoiseProfileTo_frame (@rev R) demo_store
              "notes.txt" "out.wav") as (_ & _ & _ & Hraise).
  assert (snd (generateNoiseProfileTo (@rev R) demo_store "notes.txt" "out.wav") =
            Raise (RuntimeError
                     (read_msg "notes.txt" (SoundFileError "Format not recognised."))
                     (SoundFileError "Format not recognised."))) as A3 by reflexivity.
  split; [exact A1|]. split; [exact (Hother _ A1)|].
  split; [exact A2|]. split; [exact (Hkeep _ A2)|].
  split; [exact A3|]. exact (Hraise _ A3).
Defined.

Lemma generateNoiseProfile_twice_witness :
  files demo_store !! "white_noise_test.wav" = Some (Audio [1; -1; 2]%R 44100) /\
  ("white_noise_test.wav" ∉ unwritable demo_store) /\
  files (fst (generateNoiseProfile (@rev R)
                (fst (generateNoiseProfile (@rev R) demo_store
                        "white_noise_test.wav"))
                "white_noise_test.wav")) !! "white_noise_test.wav" =
    Some (Audio [1; -1; 2]%R 44100).
Proof.
  assert (files demo_store !! "white_noise_test.wav" =
            Some (Audio [1; -1; 2]%R 44100)) as A1 by reflexivity.
  assert ("white_noise_test.wav" ∉ unwritable demo_store) as A2
    by (unfold demo_store; cbn [unwritable]; set_solver).
  split; [exact A1|]. split; [exact A2|].
  exact (proj2 (generateNoiseProfile_twice (@rev R) demo_store _ _ _ A1 A2)).
Defined.

Lemma profile_field_updates_witness :
  files readonly_store !! "white_noise_test.wav" =
    Some (Audio [1; -1; 2]%R 44100) /\
  Engine.noiseProfile
    (fst (fst (Engine.generateNoiseProfile (@rev R) (Engine.init "in.wav")
                 readonly_store "white_noise_test.wav"))) = Some [1; -1; 2]%R /\
  (forall data rate,
     files demo_store !! "notes.txt" <> Some (Audio data rate)) /\
  Engine.noiseProfile
    (fst (fst (Engine.generateNoiseProfileTo (@rev R) (Engine.init "in.wav")
                 demo_store "notes.txt" "out.wav"))) = None.
Proof.
  assert (files readonly_store !! "white_noise_test.wav" =
            Some (Audio [1; -1; 2]%R 44100)) as A1 by reflexivity.
  assert (forall data rate,
            files demo_store !! "notes.txt" <> Some (Audio data rate)) as A2
    by (intros data rate; discriminate).
  split; [exact A1|].
  split.
  { exact (proj2 (proj1 (proj2 (proj2 (proj2 (proj2
      (profile_field_updates (@rev R) (Engine.init "in.wav") readonly_store
         "white_noise_test.wav" "out.wav"))))) _ _ A1)). }
  split; [exact A2|].
  exact (proj1 (proj2 (proj2 (proj2 (proj2 (proj2
    (profile_field_updates (@rev R) (Engine.init "in.wav") demo_store
       "notes.txt" "out.wav"))))) A2)).
Defined.

Lemma script_noise_sample_witness :
  files both_samples_store !! Script.REQUESTED_NOISE_SAMPLE =
    Some (Audio [3; 4]%R 16000) /\
  (Script.OUTPUT_NOISE ∉ unwritable both_samples_store) /\
  files (fst (Script.noise_profile_step (@rev R) both_samples_store))
    !! Script.OUTPUT_NOISE = Some (Audio [4; 3]%R 16000) /\
  files demo_store !! Script.REQUESTED_NOISE_SAMPLE = None /\
  files demo_store !! Script.FALLBACK_NOISE_SAMPLE =
    Some (Audio [1; -1; 2]%R 44100) /\
  (Script.OUTPUT_NOISE ∉ unwritable demo_store) /\
  files (fst (Script.noise_profile_step (@rev R) demo_store))
    !! Script.OUTPUT_NOISE = Some (Audio [2; -1; 1]%R 44100) /\
  let bare := {| files := ∅; unwritable := ∅ |} in
  files bare !! Script.REQUESTED_NOISE_SAMPLE = None /\
  files bare !! Script.FALLBACK_NOISE_SAMPLE = None /\
  Script.noise_profile_step (@rev R) bare =
    (bare, Raise (FileNotFoundError
                    (not_found_msg Script.FALLBACK_NOISE_SAMPLE))).
Proof.
  assert (files both_samples_store !! Script.REQUESTED_NOISE_SAMPLE =
            Some (Audio [3; 4]%R 16000)) as A1 by reflexivity.
  assert (Script.OUTPUT_NOISE ∉ unwritable both_samples_store) as A2
    by (unfold both_samples_store; cbn [unwritable]; set_solver).
  assert (files demo_store !! Script.REQUESTED_NOISE_SAMPLE = None) as A3
    by reflexivity.
  assert (files demo_store !! Script.FALLBACK_NOISE_SAMPLE =
            Some (Audio [1; -1; 2]%R 44100)) as A4 by reflexivity.
  assert (Script.OUTPUT_NOISE ∉ unwritable demo_store) as A5.
  { unfold demo_store. cbn [unwritable]. intros E.
    apply elem_of_singleton in E. discriminate. }
  destruct (script_noise_sample (@rev R) both_samples_store)
    as (_ & _ & _ & Hreq & _).
  destruct (script_noise_sample (@rev R) demo_store)
    as (_ & _ & _ & _ & Hfall).
  split; [exact A1|]. split; [exact A2|].
  split; [exact (proj2 (Hreq _ _ A1 A2))|].
  split; [exact A3|]. split; [exact A4|]. split; [exact A5|].
  split; [exact (proj2 (Hfall _ _ A3 A4 A5))|].
  intros bare.
  assert (files bare !! Script.REQUESTED_NOISE_SAMPLE = None) as B1 by reflexivity.
  assert (files bare !! Script.FALLBACK_NOISE_SAMPLE = None) as B2 by reflexivity.
  split; [exact B1|]. split; [exact B2|].
  exact (proj1 (proj2 (proj2 (script_noise_sample (@rev R) bare))) B1 B2).
Defined.

End MoreProfileExamples.

(** ** [mad] under an offset and under a gain *)

Section MadInvariance.
Import Numpy.
Local Open Scope R_scope.


Lemma Rleb_scale c x y : 0 < c -> Rleb (c * x) (c * y) = Rleb x y.
Proof.
  intros Hc. unfold Rleb.
  destruct (Rle_dec (c * x) (c * y)) as [H | H], (Rle_dec x y) as [H' | H'];
    try reflexivity; exfalso.
  - apply H'. apply Rmult_le_reg_l with c; assumption.
  - apply H. apply Rmult_le_compat_l; lra.
Qed.

(** Sorting commutes with every map that keeps the comparisons. *)
Lemma sort_map_monotone (f : R -> R) :
  (forall x y, Rleb (f x) (f y) = Rleb x y) ->
  forall l, sort (map f l) = map f (sort l).
Proof.
  intros Hf.
  assert (forall x l, insert_sorted (f x) (map f l) = map f (insert_sorted x l))
    as Hins.
  { intros x l. induction l as [|y l IH]; simpl; [reflexivity|].
    rewrite Hf. destruct (Rleb x y); simpl; [reflexivity | now rewrite IH]. }
  induction l as [|x l IH]; simpl; [reflexivity|].
  fold (sort (map f l)). fold (sort l). now rewrite IH, Hins.
Qed.

Lemma nth_map_in_range (f : R -> R) l i :
  (i < length l)%nat -> nth i (map f l) 0 = f (nth i l 0).
Proof.
  intros Hi. rewrite (nth_indep (map f l) 0 (f 0)) by now rewrite length_map.
  apply map_nth.
Qed.

Lemma median_map_affine (f : R -> R) :
  (forall x y, Rleb (f x) (f y) = Rleb x y) ->
  (forall x y, f ((x + y) / 2) = (f x + f y) / 2) ->
  forall l, median (map f l) =
            match median l with Fin m => Fin (f m) | NaN => NaN end.
Proof.
  intros Hmono Hmid l. unfold median.
  rewrite (sort_map_monotone f Hmono), length_map.
  destruct (length (sort l)) as [|n] eqn:E; [reflexivity|].
  assert (S n / 2 < length (sort l))%nat as H2
    by (rewrite E; apply Nat.div_lt; lia).
  assert (S n / 2 - 1 < length (sort l))%nat as H1 by lia.
  destruct (Nat.odd (S n)).
  - now rewrite nth_map_in_range.
  - now rewrite !nth_map_in_range, Hmid.
Qed.


Lemma median_scale c l :
  0 < c ->
  median (map (fun x => c * x) l) =
    match median l with Fin m => Fin (c * m) | NaN => NaN end.
Proof.
  intros Hc. apply (median_map_affine (fun x => c * x)).
  - intros x y. now apply Rleb_scale.
  - intros x y. field.
Qed.


Lemma mad_scale_pos c arr :
  0 < c -> mad (map (fun x => c * x) arr) = nmul (Fin c) (mad arr).
Proof.
  intros Hc. unfold mad, compressed. rewrite median_scale by exact Hc.
  destruct (median arr) as [med|]; [|reflexivity].
  rewrite map_map.
  rewrite (map_ext (fun x => Rabs (c * x - c * med))
                   (fun x => c * Rabs (x - med))).
  - rewrite <- (map_map (fun x => Rabs (x - med)) (fun y => c * y)).
    rewrite median_scale by exact Hc.
    now destruct (median (map (fun x => Rabs (x - med)) arr)).
  - intros x. rewrite <- Rmult_minus_distr_l, Rabs_mult.
    now rewrite (Rabs_right c) by lra.
Qed.

(** X8.  [mad] follows a positive gain: multiplying every entry by [c > 0]
    multiplies the result by [c] (and keeps [nan] for the empty array). *)
Theorem mad_gain :
  forall c arr, 0 < c ->
    mad (map (fun x => c * x) arr) = nmul (Fin c) (mad arr).
Proof. intros c arr Hc. now apply mad_scale_pos. Qed.

Lemma mad_gain_witness :
  0 < 2 /\ mad (map (fun x => 2 * x) [1; 5; 3]) = nmul (Fin 2) (mad [1; 5; 3]).
Proof. split; [lra|]. apply mad_gain. lra. Defined.

End MadInvariance.

(** ** The universal threshold and the shrinkage it drives *)

Section ThresholdOrder.
Import Pywt AudioDeNoise.
Local Open Scope R_scope.

Lemma visu_factor_nonneg n : 0 <= R_sqrt.sqrt (2 * ln (INR n)).
Proof. apply sqrt_pos. Qed.

Lemma ln_le x y : 0 < x -> x <= y -> ln x <= ln y.
Proof.
  intros Hx [Hlt | ->]; [|lra].
  left. now apply ln_increasing.
Qed.

Lemma visu_factor_monotone n1 n2 :
  (n1 <= n2)%nat ->
  R_sqrt.sqrt (2 * ln (INR (S n1))) <= R_sqrt.sqrt (2 * ln (INR (S n2))).
Proof.
  intros H. apply sqrt_le_1_alt.
  apply Rmult_le_compat_l; [lra|].
  apply ln_le.
  - apply lt_0_INR. lia.
  - apply le_INR. lia.
Qed.

(** X9.  For a block that is not empty the threshold is a number; it never
    decreases when the scale estimate grows, and for a scale estimate that
    is not negative it never decreases when the block gets longer: the
    short last block of a file is thresholded no harder than a full one
    with the same scale. *)
Theorem universal_threshold_monotone :
  (forall len sigma1 sigma2,
     sigma1 <= sigma2 ->
     exists t1 t2,
       universal_threshold (Fin sigma1) (S len) = Fin t1 /\
       universal_threshold (Fin sigma2) (S len) = Fin t2 /\ t1 <= t2) /\
  (forall sigma len1 len2,
     0 <= sigma -> (len1 <= len2)%nat ->
     exists t1 t2,
       universal_threshold (Fin sigma) (S len1) = Fin t1 /\
       universal_threshold (Fin sigma) (S len2) = Fin t2 /\ t1 <= t2).
Proof.
  split.
  - intros len sigma1 sigma2 H. do 2 eexists.
    split; [reflexivity|]. split; [reflexivity|].
    apply Rmult_le_compat_r; [apply visu_factor_nonneg | exact H].
  - intros sigma len1 len2 Hs Hlen. do 2 eexists.
    split; [reflexivity|]. split; [reflexivity|].
    apply Rmult_le_compat_l; [exact Hs | now apply visu_factor_monotone].
Qed.

Lemma universal_threshold_monotone_witness :
  1 <= 2 /\
  (exists t1 t2,
     universal_threshold (Fin 1) 10 = Fin t1 /\
     universal_threshold (Fin 2) 10 = Fin t2 /\ t1 <= t2) /\
  0 <= 3 /\ (4 <= 9)%nat /\
  (exists t1 t2,
     universal_threshold (Fin 3) 5 = Fin t1 /\
     universal_threshold (Fin 3) 10 = Fin t2 /\ t1 <= t2).
Proof.
  assert (1 <= 2) as A1 by lra.
  assert (0 <= 3) as A2 by lra.
  assert (4 <= 9)%nat as A3 by lia.
  split; [exact A1|].
  split; [exact (proj1 universal_threshold_monotone 9%nat 1 2 A1)|].
  split; [exact A2|]. split; [exact A3|].
  exact (proj2 universal_threshold_monotone 3 4%nat 9%nat A2 A3).
Defined.

Ltac shrink_cases :=
  unfold sign, Rabs, Rmax in *;
  repeat match goal with
         | |- context [Rcase_abs ?a] => destruct (Rcase_abs a)
         | |- context [Rlt_dec ?a ?b] => destruct (Rlt_dec a b)
         | |- context [Rle_dec ?a ?b] => destruct (Rle_dec a b)
         end;
  try lra.

Lemma shrunk_value_bounds v x :
  0 < v ->
  let y := sign x * Rmax (Rabs x - v) 0 in
  Rabs y <= Rabs x /\
  (Rabs x <= v -> y = 0) /\
  (v < x -> y = x - v) /\
  (x < - v -> y = x + v).
Proof.
  intros Hv y. unfold y. clear y.
  repeat split; try intros H; shrink_cases.
Qed.

Lemma shrunk_value_monotone v x x' :
  0 < v -> x <= x' ->
  sign x * Rmax (Rabs x - v) 0 <= sign x' * Rmax (Rabs x' - v) 0.
Proof. intros Hv H. shrink_cases. Qed.

(** X10.  With a positive threshold the soft threshold always gives a
    number, never a larger magnitude than it was given: an entry within the
    threshold becomes 0, an entry beyond it moves toward 0 by exactly the
    threshold, and the order of any two entries is kept. *)
Theorem soft_threshold_shrinks :
  forall thresh x, 0 < thresh ->
    exists y,
      soft thresh x = Fin y /\
      Rabs y <= Rabs x /\
      (Rabs x <= thresh -> y = 0) /\
      (thresh < x -> y = x - thresh) /\
      (x < - thresh -> y = x + thresh) /\
      (forall x', x <= x' ->
         exists y', soft thresh x' = Fin y' /\ y <= y').
Proof.
  intros thresh x Hv.
  exists (sign x * Rmax (Rabs x - thresh) 0).
  split; [now apply soft_formula|].
  destruct (shrunk_value_bounds thresh x Hv) as (B1 & B2 & B3 & B4).
  split; [exact B1|]. split; [exact B2|]. split; [exact B3|].
  split; [exact B4|].
  intros x' Hx. exists (sign x' * Rmax (Rabs x' - thresh) 0).
  split; [now apply soft_formula | now apply shrunk_value_monotone].
Qed.

Lemma soft_threshold_shrinks_witness :
  0 < 2 /\
  exists y, soft 2 5 = Fin y /\ Rabs y <= Rabs 5 /\ y = 5 - 2.
Proof.
  assert (0 < 2) as A by lra.
  split; [exact A|].
  destruct (soft_threshold_shrinks 2 5 A) as (y & Hy & Hb & _ & Hbig & _).
  exists y. split; [exact Hy|]. split; [exact Hb|]. apply Hbig. lra.
Defined.

End ThresholdOrder.

(** ** How much longer the output can be *)

Section OutputGrowth.
Import Pywt AudioDeNoise.

Lemma processed_even bl : forall cleans,
  Forall (fun b => b <> []) bl ->
  Forall2 (fun b c => process_block b = Done c) bl cleans ->
  Nat.even (length (concat cleans)) = true.
Proof.
  induction bl as [|b bl IH]; intros cleans Hne HF; inversion HF; subst.
  - reflexivity.
  - inversion Hne; subst.
    destruct (process_block_nonempty b) as (c & Hc & Hlen); [assumption|].
    assert (y = c) as -> by congruence.
    cbn [concat]. rewrite length_app, Nat.even_add, (IH l') by assumption.
    rewrite Hlen, Nat.even_mul. reflexivity.
Qed.

Lemma odd_blocks_le bl : (length (odd_blocks bl) <= length bl)%nat.
Proof.
  unfold odd_blocks. induction bl as [|b bl IH]; simpl; [lia|].
  destruct (Nat.odd (length b)); simpl; lia.
Qed.

Lemma blocks_count bs input :
  (0 < bs)%nat ->
  length (blocks bs input) =
    (length input / bs + (if Nat.eqb (length input mod bs) 0 then 0 else 1))%nat.
Proof.
  intros Hbs. rewrite <- (length_map (@length R)), blocks_lengths by exact Hbs.
  rewrite length_app, repeat_length.
  now destruct (Nat.eqb (length input mod bs) 0).
Qed.

(** X11.  For a mono input whose computed block size is positive, every
    amount of fuel from the input's length on gives the same output; its sample
    count is even, at least the input's, and exceeds it by at most one
    sample per block, that is by at most [ceil(N / blockSize)].  An input
    with an odd sample count therefore never comes back with its own
    length. *)
Theorem deNoise_output_even :
  forall rate input bs,
    BlockSize.blockSize_of (info_of rate input) = Done bs ->
    (0 < bs)%Z ->
    exists out,
      (forall fuel, (length input <= fuel)%nat ->
         deNoise fuel rate input = Some (Done out)) /\
      Nat.even (length out) = true /\
      (length input <= length out)%nat /\
      (length out <=
         length input + length input / Z.to_nat bs
         + (if Nat.eqb (length input mod Z.to_nat bs) 0 then 0 else 1))%nat /\
      (Nat.odd (length input) = true -> (length input < length out)%nat).
Proof.
  intros rate input bs Hbs Hpos.
  assert (0 < Z.to_nat bs)%nat as Hnat by lia.
  destruct (deNoise_blocks (length input) rate input bs Hbs Hpos)
    as (cleans & HF & Hout); [lia|].
  exists (concat cleans).
  assert (Forall (fun b => b <> []) (blocks (Z.to_nat bs) input)) as Hne
    by now apply blocks_nonempty.
  pose proof (processed_even _ _ Hne HF) as Heven.
  pose proof (processed_length _ _ Hne HF) as Hlen.
  unfold blocks in Hlen at 1. rewrite blocks_fuel_concat in Hlen by lia.
  pose proof (odd_blocks_le (blocks (Z.to_nat bs) input)) as Hodd.
  rewrite (blocks_count _ input Hnat) in Hodd.
  split; [|split; [exact Heven|split; [lia|split; [lia|]]]].
  - intros fuel Hfuel.
    destruct (deNoise_blocks fuel rate input bs Hbs Hpos Hfuel)
      as (cleans' & HF' & ->).
    do 2 f_equal. clear -HF HF'.
    revert cleans' HF'.
    induction HF as [|b c bl cl Hc _ IH]; intros cleans' HF';
      inversion HF'; subst; [reflexivity|].
    cbn [concat]. f_equal; [congruence | now apply IH].
  - intros Ho. destruct (Nat.eq_dec (length (concat cleans)) (length input)) as [E|E].
    + rewrite E in Heven. rewrite <- Nat.negb_odd, Ho in Heven. discriminate.
    + lia.
Qed.

Lemma deNoise_output_even_witness :
  BlockSize.blockSize_of (info_of 40 (repeat 1%R 47)) = Done 4%Z /\
  (0 < 4)%Z /\
  exists out,
    deNoise 100 40 (repeat 1%R 47) = Some (Done out) /\
    Nat.even (length out) = true /\ (47 < length out <= 47 + 12)%nat.
Proof.
  assert (BlockSize.blockSize_of (info_of 40 (repeat 1%R 47)) = Done 4%Z) as H
    by (vm_compute; reflexivity).
  split; [exact H|]. split; [lia|].
  destruct (deNoise_output_even 40 (repeat 1%R 47) 4%Z H ltac:(lia))
    as (out & Hfuel & Heven & _ & Hup & Hodd).
  exists out.
  split; [apply Hfuel; rewrite repeat_length; lia|].
  split; [exact Heven|].
  rewrite repeat_length in Hup, Hodd.
  split; [apply Hodd; reflexivity | exact Hup].
Defined.

End OutputGrowth.

(** ** [mix_noise] *)

Section MixNoise.
Import AudioDemo.
Local Open Scope R_scope.

Lemma fold_left_Rmax_spec rest : forall x,
  x <= fold_left Rmax rest x /\
  (forall y, In y rest -> y <= fold_left Rmax rest x) /\
  In (fold_left Rmax rest x) (x :: rest).
Proof.
  induction rest as [|z rest IH]; intros x; cbn [fold_left].
  - split; [lra|]. split; [intros y []|]. now left.
  - destruct (IH (Rmax x z)) as (H1 & H2 & H3).
    pose proof (Rmax_l x z). pose proof (Rmax_r x z).
    split; [lra|]. split.
    + intros y [<- | Hy]; [lra | now apply H2].
    + destruct H3 as [H3 | H3]; [|right; now right].
      rewrite <- H3. unfold Rmax. destruct (Rle_dec x z); [right|]; now left.
Qed.

Lemma np_max_spec l m :
  np_max l = Done m -> (forall y, In y l -> y <= m) /\ In m l.
Proof.
  destruct l as [|x rest]; [discriminate|]. intros [= <-].
  destruct (fold_left_Rmax_spec rest x) as (H1 & H2 & H3).
  split; [|exact H3]. intros y [<- | Hy]; [exact H1 | now apply H2].
Qed.

Lemma np_max_nonempty l : l <> [] -> exists m, np_max l = Done m.
Proof. destruct l; [congruence|]. intros _. eexists. reflexivity. Qed.

Lemma tile_length noise reps :
  length (tile noise reps) = (Z.to_nat reps * length noise)%nat.
Proof.
  unfold tile. induction (Z.to_nat reps) as [|n IH]; simpl; [reflexivity|].
  now rewrite length_app, IH.
Qed.

Lemma tile_nth noise reps i :
  (i < Z.to_nat reps * length noise)%nat ->
  nth i (tile noise reps) 0 = nth (i mod length noise) noise 0.
Proof.
  unfold tile. revert i.
  induction (Z.to_nat reps) as [|n IH]; intros i Hi; [simpl in Hi; lia|].
  cbn [repeat concat].
  destruct (Nat.lt_ge_cases i (length noise)) as [Hlt | Hge].
  - rewrite app_nth1 by exact Hlt. now rewrite Nat.mod_small.
  - rewrite app_nth2 by exact Hge. rewrite IH by (simpl in Hi; lia).
    f_equal.
    replace i with (i - length noise + 1 * length noise)%nat at 2 by lia.
    now rewrite Nat.Div0.mod_add.
Qed.

(** The noise after the first statement of [mix_noise]: as long as the
    clean signal, entry [i] being entry [i mod len(noise)] of the noise. *)
Lemma fit_noise_spec clean noise :
  clean <> [] -> noise_covers clean noise ->
  exists noise',
    fit_noise clean noise = Done noise' /\
    length noise' = length clean /\
    forall i, (i < length clean)%nat ->
      nth i noise' 0 = nth (i mod length noise) noise 0.
Proof.
  intros Hne Hcov. unfold fit_noise.
  destruct (Nat.ltb (length noise) (length clean)) eqn:E.
  - apply Nat.ltb_lt in E.
    destruct Hcov as [Hlen | (reps & Hr & Hlen)]; [lia|].
    rewrite Hr. cbn [bind]. eexists. split; [reflexivity|].
    split.
    + rewrite length_firstn, tile_length. lia.
    + intros i Hi. rewrite nth_firstn.
      destruct (Nat.ltb_spec i (length clean)); [|lia].
      apply tile_nth. lia.
  - apply Nat.ltb_ge in E. eexists. split; [reflexivity|].
    split.
    + rewrite length_firstn. lia.
    + intros i Hi. rewrite nth_firstn.
      destruct (Nat.ltb_spec i (length clean)); [|lia].
      now rewrite Nat.mod_small by lia.
Qed.

Lemma nth_map_lt {A B} (f : A -> B) l : forall i d d',
  (i < length l)%nat -> nth i (map f l) d' = f (nth i l d).
Proof.
  induction l as [|x l IH]; intros i d d' Hi; [simpl in Hi; lia|].
  destruct i; [reflexivity|]. simpl. apply IH. simpl in Hi. lia.
Qed.

Lemma add_arrays_same_length a b :
  length a = length b ->
  add_arrays a b = Done (map (fun p => fst p + snd p) (combine a b)) /\
  length (map (fun p => fst p + snd p) (combine a b)) = length a /\
  forall i, (i < length a)%nat ->
    nth i (map (fun p => fst p + snd p) (combine a b)) 0 = nth i a 0 + nth i b 0.
Proof.
  intros H. unfold add_arrays. rewrite H, Nat.eqb_refl.
  split; [reflexivity|]. split.
  - rewrite length_map, length_combine. lia.
  - intros i Hi.
    rewrite (nth_map_lt _ _ i (0, 0)) by (rewrite length_combine; lia).
    now rewrite combine_nth by exact H.
Qed.

(** The signal before normalisation. *)
Lemma mix_noise_raw clean noise noise_level :
  clean <> [] -> noise_covers clean noise ->
  exists raw peak,
    length raw = length clean /\
    (forall i, (i < length clean)%nat ->
       nth i raw 0 =
         nth i clean 0 + nth (i mod length noise) noise 0 * noise_level) /\
    np_max (map Rabs raw) = Done peak /\
    mix_noise clean noise noise_level =
      Done (if Rlt_dec 1 peak then map (fun x => x / peak) raw else raw).
Proof.
  intros Hne Hcov.
  destruct (fit_noise_spec clean noise Hne Hcov) as (noise' & Hfit & Hlen & Hnth).
  unfold mix_noise. rewrite Hfit. cbn [bind].
  destruct (add_arrays_same_length clean (map (fun x => x * noise_level) noise'))
    as (Hadd & Hlraw & Hnraw); [now rewrite length_map|].
  rewrite Hadd. cbn [bind].
  set (raw := map _ (combine _ _)) in *.
  destruct (np_max_nonempty (map Rabs raw)) as [peak Hpeak].
  { intros E. apply (f_equal (@length R)) in E.
    rewrite length_map, Hlraw in E. destruct clean; [congruence | discriminate]. }
  exists raw, peak. rewrite Hpeak. cbn [bind].
  split; [exact Hlraw|]. split; [|split; [reflexivity|]].
  - intros i Hi. rewrite Hnraw by exact Hi. f_equal.
    rewrite (nth_map_lt _ _ i 0) by lia. now rewrite Hnth.
  - now destruct (Rlt_dec 1 peak).
Qed.

(** X12.  For a clean signal that is not empty, [mix_noise] returns a
    signal of the clean signal's length in which no sample exceeds 1 in
    magnitude, whatever the noise level. *)
Theorem mix_noise_bounded :
  forall clean noise noise_level,
    clean <> [] -> noise_covers clean noise ->
    exists noisy,
      mix_noise clean noise noise_level = Done noisy /\
      length noisy = length clean /\
      Forall (fun y => Rabs y <= 1) noisy.
Proof.
  intros clean noise noise_level Hne Hcov.
  destruct (mix_noise_raw clean noise noise_level Hne Hcov)
    as (raw & peak & Hlen & _ & Hpeak & ->).
  destruct (np_max_spec _ _ Hpeak) as [Hle _].
  assert (forall x, In x raw -> Rabs x <= peak) as Hb
    by (intros x Hx; apply Hle; now apply in_map).
  eexists. split; [reflexivity|].
  destruct (Rlt_dec 1 peak) as [Hp | Hp].
  - split; [now rewrite length_map|].
    apply Forall_forall. intros y Hy.
    apply in_map_iff in Hy. destruct Hy as (x & <- & Hx).
    unfold Rdiv. rewrite Rabs_mult, (Rabs_right (/ peak)).
    + apply Rmult_le_reg_r with peak; [lra|].
      rewrite Rmult_assoc, Rinv_l by lra. specialize (Hb x Hx). lra.
    + left. apply Rinv_0_lt_compat. lra.
  - split; [exact Hlen|].
    apply Forall_forall. intros y Hy. specialize (Hb y Hy). lra.
Qed.

(** X13.  The noise is repeated end to end and cut to the clean signal's
    length before it is added: sample [i] of the mix is
    [clean[i] + noise[i mod len(noise)] * noise_level], and the whole signal
    is divided by its peak magnitude only when that peak exceeds 1. *)
Theorem mix_noise_tiles :
  forall clean noise noise_level,
    clean <> [] -> noise_covers clean noise ->
    exists raw peak,
      (forall i, (i < length clean)%nat ->
         nth i raw 0 =
           nth i clean 0 + nth (i mod length noise) noise 0 * noise_level) /\
      length raw = length clean /\
      (forall x, In x raw -> Rabs x <= peak) /\
      (exists x, In x raw /\ Rabs x = peak) /\
      (peak <= 1 -> mix_noise clean noise noise_level = Done raw) /\
      (1 < peak ->
       mix_noise clean noise noise_level = Done (map (fun x => x / peak) raw)).
Proof.
  intros clean noise noise_level Hne Hcov.
  destruct (mix_noise_raw clean noise noise_level Hne Hcov)
    as (raw & peak & Hlen & Hnth & Hpeak & Hmix).
  destruct (np_max_spec _ _ Hpeak) as [Hle Hin].
  exists raw, peak.
  split; [exact Hnth|]. split; [exact Hlen|].
  split; [intros x Hx; apply Hle; now apply in_map|].
  split.
  - apply in_map_iff in Hin. destruct Hin as (x & Hx & Hxin). now exists x.
  - rewrite Hmix. split; intros Hp; destruct (Rlt_dec 1 peak); try reflexivity; lra.
Qed.

(** X14.  [mix_noise] refuses an empty clean signal with [ValueError] (the
    peak of no samples), and raises [ZeroDivisionError] for empty noise
    under a clean signal that is not empty. *)
Theorem mix_noise_errors :
  (forall noise noise_level, mix_noise [] noise noise_level = Raise ValueError) /\
  (forall clean noise_level,
     clean <> [] -> mix_noise clean [] noise_level = Raise ZeroDivisionError).
Proof.
  split.
  - intros noise noise_level. unfold mix_noise, fit_noise. reflexivity.
  - intros clean noise_level Hne. unfold mix_noise, fit_noise.
    destruct clean as [|x clean]; [congruence|]. reflexivity.
Qed.

End MixNoise.

Section MixNoiseExamples.
Import AudioDemo.
Local Open Scope R_scope.

Lemma five_over_two_covers : noise_covers [1; 2; 3; 4; 5] [8; -8].
Proof.
  right. exists 3%Z. split; [vm_compute; reflexivity | simpl; lia].
Defined.

Lemma mix_noise_bounded_witness :
  [1; 2; 3; 4; 5] <> [] /\ noise_covers [1; 2; 3; 4; 5] [8; -8] /\
  exists noisy,
    mix_noise [1; 2; 3; 4; 5] [8; -8] (1 / 2) = Done noisy /\
    length noisy = 5%nat /\ Forall (fun y => Rabs y <= 1) noisy.
Proof.
  assert ([1; 2; 3; 4; 5] <> []) as H by discriminate.
  split; [exact H|]. split; [exact five_over_two_covers|].
  exact (mix_noise_bounded [1; 2; 3; 4; 5] [8; -8] (1 / 2) H five_over_two_covers).
Defined.

Lemma mix_noise_tiles_witness :
  [1; 2; 3; 4; 5] <> [] /\ noise_covers [1; 2; 3; 4; 5] [8; -8] /\
  exists raw peak,
    (forall i, (i < 5)%nat ->
       nth i raw 0 =
         nth i [1; 2; 3; 4; 5] 0 + nth (i mod 2) [8; -8] 0 * (1 / 2)) /\
    length raw = 5%nat /\
    (1 < peak ->
     mix_noise [1; 2; 3; 4; 5] [8; -8] (1 / 2) =
       Done (map (fun x => x / peak) raw)).
Proof.
  assert ([1; 2; 3; 4; 5] <> []) as H by discriminate.
  split; [exact H|]. split; [exact five_over_two_covers|].
  destruct (mix_noise_tiles [1; 2; 3; 4; 5] [8; -8] (1 / 2) H five_over_two_covers)
    as (raw & peak & Hnth & Hlen & _ & _ & _ & Hbig).
  exists raw, peak. split; [exact Hnth|]. split; [exact Hlen | exact Hbig].
Defined.

Lemma mix_noise_errors_witness :
  [1; 2] <> [] /\ mix_noise [1; 2] [] (1 / 2) = Raise ZeroDivisionError.
Proof.
  assert ([1; 2] <> []) as H by discriminate.
  split; [exact H|]. exact (proj2 mix_noise_errors [1; 2] (1 / 2) H).
Defined.

End MixNoiseExamples.

(** ** The scaling of the generated noise *)

Section WhiteNoiseScale.
Import AudioDemo WhiteNoise.
Local Open Scope R_scope.

Lemma peak_of_abs l peak :
  np_max (map Rabs l) = Done peak ->
  0 <= peak /\ (forall x, In x l -> Rabs x <= peak) /\
  exists x, In x l /\ Rabs x = peak.
Proof.
  intros H. destruct (np_max_spec _ _ H) as [Hle Hin].
  apply in_map_iff in Hin. destruct Hin as (x & Hx & Hxin).
  split; [rewrite <- Hx; apply Rabs_pos|].
  split; [intros y Hy; apply Hle; now apply in_map|].
  now exists x.
Qed.

(** X15.  The noise is scaled so that its largest magnitude is exactly
    [|amplitude|]: when some entry is not 0, every entry of the scaled
    array is within [|amplitude|] and some entry reaches it, the shape of
    the array being kept.  An array without entries is refused with
    [ValueError], and an array of zeros becomes an array of [nan]. *)
Theorem scale_peak_is_amplitude :
  (forall noise_signal amplitude,
     (exists x, In x (concat noise_signal) /\ x <> 0) ->
     exists peak,
       0 < peak /\
       scale noise_signal amplitude =
         Done (map (map (fun x => Fin (x / peak * amplitude))) noise_signal) /\
       (forall x, In x (concat noise_signal) ->
          Rabs (x / peak * amplitude) <= Rabs amplitude) /\
       (exists x, In x (concat noise_signal) /\
          Rabs (x / peak * amplitude) = Rabs amplitude)) /\
  (forall noise_signal amplitude,
     concat noise_signal = [] ->
     scale noise_signal amplitude = Raise ValueError) /\
  (forall noise_signal amplitude,
     concat noise_signal <> [] ->
     silent (concat noise_signal) ->
     scale noise_signal amplitude =
       Done (map (map (fun _ => NaN)) noise_signal)).
Proof.
  split; [|split].
  - intros noise_signal amplitude (x0 & Hx0 & Hnz).
    destruct (np_max_nonempty (map Rabs (concat noise_signal))) as [peak Hpeak].
    { intros E. apply map_eq_nil in E. rewrite E in Hx0. destruct Hx0. }
    destruct (peak_of_abs _ _ Hpeak) as (Hpos & Hle & x1 & Hx1 & Hat).
    assert (0 < peak) as Hp.
    { pose proof (Hle x0 Hx0). pose proof (Rabs_pos_lt x0 Hnz). lra. }
    exists peak. split; [exact Hp|].
    assert (forall x, Rabs (x / peak * amplitude) = Rabs x / peak * Rabs amplitude)
      as Habs.
    { intros x. unfold Rdiv. rewrite !Rabs_mult, (Rabs_right (/ peak)).
      - reflexivity.
      - left. now apply Rinv_0_lt_compat. }
    split; [|split].
    + unfold scale. rewrite Hpeak. cbn [bind].
      destruct (Req_dec_T peak 0); [lra | reflexivity].
    + intros x Hx. rewrite Habs.
      rewrite <- (Rmult_1_l (Rabs amplitude)) at 2.
      apply Rmult_le_compat_r; [apply Rabs_pos|].
      apply Rmult_le_reg_r with peak; [exact Hp|].
      unfold Rdiv. rewrite Rmult_assoc, Rinv_l by lra.
      specialize (Hle x Hx). lra.
    + exists x1. split; [exact Hx1|]. rewrite Habs, Hat.
      unfold Rdiv. rewrite Rinv_r by lra. ring.
  - intros noise_signal amplitude E. unfold scale. now rewrite E.
  - intros noise_signal amplitude Hne Hs.
    destruct (np_max_nonempty (map Rabs (concat noise_signal))) as [peak Hpeak].
    { intros E. apply map_eq_nil in E. contradiction. }
    destruct (peak_of_abs _ _ Hpeak) as (_ & _ & x & Hx & Hat).
    unfold silent in Hs. rewrite Forall_forall in Hs.
    rewrite (Hs x Hx), Rabs_R0 in Hat.
    unfold scale. rewrite Hpeak. cbn [bind].
    destruct (Req_dec_T peak 0); [reflexivity | congruence].
Qed.

Lemma scale_peak_is_amplitude_witness :
  (exists x, In x (concat [[1; -4]; [2; 3]]) /\ x <> 0) /\
  (exists peak,
     0 < peak /\
     scale [[1; -4]; [2; 3]] (1 / 2) =
       Done (map (map (fun x => Fin (x / peak * (1 / 2)))) [[1; -4]; [2; 3]])) /\
  concat [[]; []] = @nil R /\
  scale [[]; []] (1 / 2) = Raise ValueError /\
  concat [[0]; [0]] <> [] /\ silent (concat [[0]; [0]]) /\
  scale [[0]; [0]] (1 / 2) = Done [[NaN]; [NaN]].
Proof.
  assert (exists x, In x (concat [[1; -4]; [2; 3]]) /\ x <> 0) as A1
    by (exists 1; split; [now left | lra]).
  assert (concat [[]; []] = @nil R) as A2 by reflexivity.
  assert (concat [[0]; [0]] <> []) as A3 by discriminate.
  assert (silent (concat [[0]; [0]])) as A4 by (repeat constructor).
  destruct scale_peak_is_amplitude as (H1 & H2 & H3).
  split; [exact A1|].
  split.
  { destruct (H1 [[1; -4]; [2; 3]] (1 / 2) A1) as (peak & Hp & Hs & _).
    exists peak. split; [exact Hp | exact Hs]. }
  split; [exact A2|]. split; [exact (H2 _ (1 / 2) A2)|].
  split; [exact A3|]. split; [exact A4|].
  exact (H3 _ (1 / 2) A3 A4).
Defined.

End WhiteNoiseScale.

(** ** De-noising and gain *)

Section Gain.
Import Pywt AudioDeNoise.
Local Open Scope R_scope.

Variable c : R.
Hypothesis Hc : 0 < c.

Lemma length_gainR x : length (gainR c x) = length x.
Proof. apply length_map. Qed.

Lemma length_gainN x : length (gainN c x) = length x.
Proof. apply length_map. Qed.

Lemma nth_gainR x : forall i, nth i (gainR c x) 0 = c * nth i x 0.
Proof.
  unfold gainR. induction x as [|y x IH]; intros i.
  - destruct i; simpl; ring.
  - destruct i; simpl; [reflexivity | apply IH].
Qed.

Lemma last_gainR x : last (gainR c x) 0 = c * last x 0.
Proof.
  unfold gainR. induction x as [|y x IH]; [simpl; ring|].
  destruct x as [|z x]; [reflexivity|]. exact IH.
Qed.

Lemma per_extend_gain x : per_extend (gainR c x) = gainR c (per_extend x).
Proof.
  unfold per_extend. rewrite length_gainR.
  destruct (Nat.odd (length x)); [|reflexivity].
  rewrite last_gainR. unfold gainR. now rewrite map_app.
Qed.

Lemma Rsum_gain {A} (g : A -> R) l :
  Rsum (map (fun j => c * g j) l) = c * Rsum (map g l).
Proof.
  unfold Rsum. induction l as [|x l IH]; simpl; [ring|].
  rewrite IH. ring.
Qed.

Lemma per_dot_gain f x k : per_dot f (gainR c x) k = c * per_dot f x k.
Proof.
  unfold per_dot. rewrite <- Rsum_gain. f_equal.
  apply map_ext. intros j. rewrite nth_gainR, length_gainR. ring.
Qed.

Lemma per_downsample_gain f x :
  per_downsample f (gainR c x) = gainR c (per_downsample f x).
Proof.
  unfold per_downsample. rewrite per_extend_gain, length_gainR.
  unfold gainR at 2. rewrite map_map.
  apply map_ext. intros k. apply per_dot_gain.
Qed.

Lemma soft_gain v x : soft (c * v) (c * x) = nmul (Fin c) (soft v x).
Proof.
  unfold soft.
  destruct (Req_dec_T x 0) as [-> | Hx].
  - destruct (Req_dec_T (c * 0) 0) as [_ | E]; [|exfalso; apply E; ring].
    destruct (Rlt_dec 0 v) as [Hv | Hv], (Rlt_dec 0 (c * v)) as [Hv' | Hv'].
    + cbn. f_equal. ring.
    + exfalso. apply Hv'. now apply Rmult_lt_0_compat.
    + exfalso. apply Hv. apply Rmult_lt_reg_l with c; [exact Hc|]. lra.
    + reflexivity.
  - destruct (Req_dec_T (c * x) 0) as [E | _].
    + exfalso. apply Rmult_integral in E. destruct E; lra.
    + cbn. f_equal.
      rewrite Rabs_mult, (Rabs_right c) by lra.
      replace (c * v / (c * Rabs x)) with (v / Rabs x)
        by (field; split; [now apply Rabs_no_R0 | lra]).
      ring.
Qed.

Lemma soft_by_gain t x :
  soft_by (nmul (Fin c) t) (c * x) = nmul (Fin c) (soft_by t x).
Proof. destruct t as [v|]; [apply soft_gain | reflexivity]. Qed.

Lemma universal_threshold_gain sigma len :
  universal_threshold (nmul (Fin c) sigma) len =
    nmul (Fin c) (universal_threshold sigma len).
Proof.
  unfold universal_threshold. destruct len; [reflexivity|].
  destruct sigma; [|reflexivity]. cbn. f_equal. ring.
Qed.

Lemma map_Fin_gain l : map Fin (gainR c l) = gainN c (map Fin l).
Proof. unfold gainR, gainN. rewrite !map_map. reflexivity. Qed.

Lemma map_soft_by_gain t l :
  map (soft_by (nmul (Fin c) t)) (gainR c l) = gainN c (map (soft_by t) l).
Proof.
  unfold gainR, gainN. rewrite !map_map. apply map_ext. intros x.
  apply soft_by_gain.
Qed.

Lemma mad_gainR arr : mad (gainR c arr) = nmul (Fin c) (mad arr).
Proof. unfold gainR. now apply mad_scale_pos. Qed.

Lemma shrunk_coefficients_gain block :
  block <> [] ->
  exists coefficients,
    shrunk_coefficients block = Done coefficients /\
    shrunk_coefficients (gainR c block) = Done (map (gainN c) coefficients).
Proof.
  intros Hb.
  assert (gainR c block <> []) as Hb'
    by (destruct block; [congruence | discriminate]).
  unfold shrunk_coefficients.
  rewrite (wavedec_level2 db4 block Hb), (wavedec_level2 db4 (gainR c block) Hb').
  cbn [bind last].
  rewrite !per_downsample_gain, length_gainR, mad_gainR.
  rewrite universal_threshold_gain, !shrink_cons.
  eexists. split; [reflexivity|].
  cbn [map]. now rewrite map_Fin_gain, !map_soft_by_gain.
Qed.

Lemma nsum_gain l : nsum (gainN c l) = nmul (Fin c) (nsum l).
Proof.
  unfold nsum, gainN. induction l as [|x l IH]; simpl.
  - f_equal. ring.
  - rewrite IH. destruct x, (fold_right nadd (Fin 0) l); cbn;
      try reflexivity. f_equal. ring.
Qed.

Lemma nth_gainN a : forall k,
  nth k (gainN c a) (Fin 0) = nmul (Fin c) (nth k a (Fin 0)).
Proof.
  unfold gainN. induction a as [|y a IH]; intros k.
  - destruct k; cbn; f_equal; ring.
  - destruct k; simpl; [reflexivity | apply IH].
Qed.

Lemma per_upsample_at_gain w a d m :
  per_upsample_at w (gainN c a) (gainN c d) m =
    nmul (Fin c) (per_upsample_at w a d m).
Proof.
  unfold per_upsample_at. rewrite <- nsum_gain, length_gainN.
  unfold gainN at 3. rewrite map_map. f_equal. apply map_ext. intros k.
  rewrite <- nsum_gain. unfold gainN at 3. rewrite map_map.
  f_equal. apply map_ext. intros i.
  destruct (Nat.eqb _ m).
  - rewrite !nth_gainN.
    destruct (nth k a (Fin 0)), (nth k d (Fin 0)); cbn; try reflexivity.
    f_equal. ring.
  - cbn. f_equal. ring.
Qed.

Lemma idwt_gain w a d :
  idwt w (gainN c a) (gainN c d) = gain_outcome c (idwt w a d).
Proof.
  unfold idwt. rewrite !length_gainN.
  destruct (Nat.eqb (length a) (length d)); [|reflexivity].
  cbn [gain_outcome]. f_equal. unfold gainN at 3. rewrite map_map.
  apply map_ext. intros m. apply per_upsample_at_gain.
Qed.

Lemma firstn_gainN n a : firstn n (gainN c a) = gainN c (firstn n a).
Proof. unfold gainN. apply firstn_map. Qed.

Lemma waverec_loop_gain w ds : forall a,
  waverec_loop w (gainN c a) (map (gainN c) ds) =
    gain_outcome c (waverec_loop w a ds).
Proof.
  induction ds as [|d ds IH]; intros a; cbn [waverec_loop map].
  - reflexivity.
  - rewrite !length_gainN.
    destruct (Nat.eqb (length a) (length d + 1)).
    + cbn [bind]. rewrite firstn_gainN, idwt_gain.
      destruct (idwt w (firstn (length d) a) d) as [a''|e];
        cbn [bind gain_outcome]; [apply IH | reflexivity].
    + destruct (Nat.eqb (length a) (length d)); cbn [bind]; [|reflexivity].
      rewrite idwt_gain.
      destruct (idwt w a d) as [a''|e]; cbn [bind gain_outcome];
        [apply IH | reflexivity].
Qed.

Lemma process_block_gain block :
  process_block (gainR c block) = gain_outcome c (process_block block).
Proof.
  destruct block as [|x block]; [reflexivity|].
  destruct (shrunk_coefficients_gain (x :: block)) as (coeffs & H1 & H2);
    [discriminate|].
  unfold process_block. rewrite H1, H2. cbn [bind].
  destruct coeffs as [|a ds]; [reflexivity|].
  cbn [map waverec]. apply waverec_loop_gain.
Qed.

Lemma firstn_gainR n l : firstn n (gainR c l) = gainR c (firstn n l).
Proof. unfold gainR. apply firstn_map. Qed.

Lemma skipn_gainR n l : skipn n (gainR c l) = gainR c (skipn n l).
Proof. unfold gainR. apply skipn_map. Qed.

Lemma deNoise_loop_gain fuel bs : forall remaining written,
  deNoise_loop fuel bs (gainR c remaining) (gainN c written) =
    option_map (gain_outcome c) (deNoise_loop fuel bs remaining written).
Proof.
  induction fuel as [|fuel IH]; intros remaining written.
  - destruct remaining; reflexivity.
  - destruct remaining as [|x r]; [reflexivity|].
    assert (deNoise_loop (S fuel) bs (gainR c (x :: r)) (gainN c written) =
            match process_block (firstn bs (gainR c (x :: r))) with
            | Done clean =>
                deNoise_loop fuel bs (skipn bs (gainR c (x :: r)))
                             (gainN c written ++ clean)
            | Raise e => Some (Raise e)
            end) as -> by reflexivity.
    cbn [deNoise_loop].
    rewrite firstn_gainR, skipn_gainR, process_block_gain.
    destruct (process_block (firstn bs (x :: r))) as [clean|e];
      cbn [gain_outcome]; [|reflexivity].
    rewrite <- IH. f_equal. unfold gainN. now rewrite map_app.
Qed.

Lemma blocks_fuel_gain fuel bs : forall l,
  blocks_fuel fuel bs (gainR c l) = map (gainR c) (blocks_fuel fuel bs l).
Proof.
  induction fuel as [|fuel IH]; intros l.
  - destruct l; reflexivity.
  - destruct l as [|x r]; [reflexivity|].
    change (gainR c (x :: r)) with ((c * x) :: gainR c r) at 1.
    cbn [blocks_fuel map].
    change ((c * x) :: gainR c r) with (gainR c (x :: r)).
    now rewrite firstn_gainR, skipn_gainR, IH.
Qed.

Lemma blocks_gain bs l : blocks bs (gainR c l) = map (gainR c) (blocks bs l).
Proof. unfold blocks. rewrite length_gainR. apply blocks_fuel_gain. Qed.

Lemma block_threshold_gain block :
  universal_threshold (mad (per_downsample (dec_hi db4) (gainR c block)))
                      (length (gainR c block)) =
    nmul (Fin c)
         (universal_threshold (mad (per_downsample (dec_hi db4) block))
                              (length block)).
Proof.
  now rewrite per_downsample_gain, mad_gainR, length_gainR,
    universal_threshold_gain.
Qed.

End Gain.

(** X16.  For a mono input, de-noising commutes with a positive gain
    (sample arithmetic taken exactly): an input multiplied by [c > 0] has
    the same block size and is cut into the same blocks, the threshold of
    each block is multiplied by [c], and the output is the output of the
    original input multiplied by [c]; the call raises, or runs out of
    iterations, exactly when the original does. *)
Theorem deNoise_gain :
  forall c fuel rate input,
    (0 < c)%R ->
    BlockSize.blockSize_of (AudioDeNoise.info_of rate (gainR c input)) =
      BlockSize.blockSize_of (AudioDeNoise.info_of rate input) /\
    (forall bs,
       AudioDeNoise.blocks bs (gainR c input) =
         map (gainR c) (AudioDeNoise.blocks bs input)) /\
    (forall block,
       AudioDeNoise.universal_threshold
         (mad (Pywt.per_downsample (Pywt.dec_hi Pywt.db4) (gainR c block)))
         (length (gainR c block)) =
       nmul (Fin c)
         (AudioDeNoise.universal_threshold
            (mad (Pywt.per_downsample (Pywt.dec_hi Pywt.db4) block))
            (length block))) /\
    AudioDeNoise.deNoise fuel rate (map (fun x => (c * x)%R) input) =
      match AudioDeNoise.deNoise fuel rate input with
      | Some (Done out) => Some (Done (map (nmul (Fin c)) out))
      | other => other
      end.
Proof.
  intros c fuel rate input Hc.
  split; [unfold AudioDeNoise.info_of; now rewrite length_gainR|].
  split; [intros bs; apply blocks_gain|].
  split; [intros block; now apply block_threshold_gain|].
  unfold AudioDeNoise.deNoise, AudioDeNoise.info_of.
  rewrite length_map.
  destruct (BlockSize.blockSize_of _) as [bs|e]; [|reflexivity].
  change (@nil num) with (gainN c []) at 1.
  fold (gainR c input). rewrite (deNoise_loop_gain c Hc).
  destruct (AudioDeNoise.deNoise_loop fuel (Z.to_nat bs) input [])
    as [[out|e]|]; reflexivity.
Qed.

Lemma deNoise_gain_witness :
  (0 < 2)%R /\
  BlockSize.blockSize_of (AudioDeNoise.info_of 30 (repeat 1%R 30)) = Done 3%Z /\
  BlockSize.blockSize_of (AudioDeNoise.info_of 30 (gainR 2 (repeat 1%R 30))) =
    Done 3%Z /\
  exists out,
    length out = 40%nat /\
    AudioDeNoise.deNoise 30 30 (repeat 1%R 30) = Some (Done out) /\
    AudioDeNoise.deNoise 30 30 (map (fun x => (2 * x)%R) (repeat 1%R 30)) =
      Some (Done (map (nmul (Fin 2)) out)).
Proof.
  assert (0 < 2)%R as H by lra.
  assert (BlockSize.blockSize_of (AudioDeNoise.info_of 30 (repeat 1%R 30)) =
            Done 3%Z) as Hbs by (vm_compute; reflexivity).
  destruct (deNoise_gain 2 30%nat 30%Z (repeat 1%R 30) H) as (E1 & _ & _ & E2).
  split; [exact H|]. split; [exact Hbs|].
  split; [rewrite E1; exact Hbs|].
  destruct (deNoise_blocks_length 30 30 (repeat 1%R 30) 3%Z Hbs ltac:(lia))
    as (out & Hout & Hlen); [simpl; lia|].
  exists out. split; [rewrite Hlen; reflexivity|]. split; [exact Hout|].
  rewrite E2, Hout. reflexivity.
Defined.

(** ** Blocks do not see one another *)

Section BlockIndependence.
Import Pywt AudioDeNoise.

Lemma processed_unique bl : forall cleans cleans',
  Forall2 (fun b c => process_block b = Done c) bl cleans ->
  Forall2 (fun b c => process_block b = Done c) bl cleans' ->
  cleans = cleans'.
Proof.
  induction bl as [|b bl IH]; intros cleans cleans' H H';
    inversion H; inversion H'; subst; [reflexivity|].
  f_equal; [congruence | now apply IH].
Qed.

Lemma processed_uniform_length n bl cleans :
  (0 < n)%nat ->
  Forall (fun b => length b = n) bl ->
  Forall2 (fun b c => process_block b = Done c) bl cleans ->
  length (concat cleans) = (length bl * (2 * dwt_coeff_len n))%nat.
Proof.
  intros Hn Hsame HF.
  induction HF as [|b c bl cl Hc _ IH]; [reflexivity|].
  inversion Hsame as [|? ? Hb Hrest]; subst.
  destruct (process_block_nonempty b) as (c' & Hc' & Hlen).
  { apply length_pos_nonempty. lia. }
  assert (c = c') as -> by congruence.
  cbn [concat length]. rewrite length_app, Hlen, (IH Hrest). lia.
Qed.

(** The blocks of [x ++ y] are the blocks of [x] followed by those of [y]
    when the block size divides the length of [x]. *)
Lemma blocks_fuel_app bs k : forall x y fuel,
  (0 < bs)%nat -> length x = (k * bs)%nat ->
  (length (x ++ y) <= fuel)%nat ->
  blocks_fuel fuel bs (x ++ y) = blocks_fuel fuel bs x ++ blocks_fuel fuel bs y.
Proof.
  induction k as [|k IH]; intros x y fuel Hbs Hx Hf.
  - destruct x; [|simpl in Hx; lia]. now destruct fuel.
  - destruct x as [|a x]; [simpl in Hx; lia|].
    rewrite length_app in Hf. cbn [length] in Hx, Hf.
    destruct fuel as [|fuel]; [lia|].
    assert (bs <= S (length x))%nat as Hle by (simpl in Hx; lia).
    assert (firstn bs ((a :: x) ++ y) = firstn bs (a :: x)) as Ef.
    { rewrite firstn_app. cbn [length].
      replace (bs - S (length x))%nat with 0%nat by lia.
      cbn [firstn]. apply app_nil_r. }
    assert (skipn bs ((a :: x) ++ y) = skipn bs (a :: x) ++ y) as Es.
    { rewrite skipn_app. cbn [length].
      replace (bs - S (length x))%nat with 0%nat by lia. reflexivity. }
    assert (length (skipn bs (a :: x)) = (k * bs)%nat) as Hk
      by (rewrite length_skipn; cbn [length]; simpl in Hx; lia).
    change ((a :: x) ++ y) with (a :: (x ++ y)) at 1.
    cbn [blocks_fuel].
    change (a :: (x ++ y)) with ((a :: x) ++ y).
    rewrite Ef, Es. cbn [app]. f_equal.
    rewrite (IH _ y fuel Hbs Hk) by (rewrite length_app; lia).
    f_equal.
    assert (length y <= fuel)%nat as H1 by lia.
    assert (length y <= S fuel)%nat as H2 by lia.
    exact (blocks_fuel_stable bs fuel (S fuel) y Hbs H1 H2).
Qed.

Lemma blocks_app bs x y k :
  (0 < bs)%nat -> length x = (k * bs)%nat ->
  blocks bs (x ++ y) = blocks bs x ++ blocks bs y.
Proof.
  intros Hbs Hx. unfold blocks at 1.
  rewrite (blocks_fuel_app bs k x y _ Hbs Hx (Nat.le_refl _)).
  rewrite length_app.
  f_equal; apply blocks_fuel_enough; try exact Hbs; lia.
Qed.

Lemma blocks_full bs x k :
  (0 < bs)%nat -> length x = (k * bs)%nat ->
  length (blocks bs x) = k /\
  Forall (fun b => length b = bs) (blocks bs x).
Proof.
  intros Hbs Hx.
  pose proof (blocks_lengths bs x Hbs) as H.
  rewrite Hx, Nat.Div0.mod_mul, Nat.div_mul in H by lia.
  cbn [Nat.eqb] in H. rewrite app_nil_r in H.
  split.
  - rewrite <- (length_map (@length R)), H. apply repeat_length.
  - apply Forall_forall. intros b Hb.
    apply (in_map (@length R)) in Hb. rewrite H in Hb.
    now apply repeat_spec in Hb.
Qed.

(** X17.  In a mono file, samples after a block boundary do not reach the
    output before it: two inputs of one length that agree on their first
    [k] blocks give outputs that agree on the first
    [k * 2 * ceil(blockSize / 2)] samples. *)
Theorem deNoise_head_independent :
  forall rate x y y' bs k,
    length y = length y' ->
    BlockSize.blockSize_of (info_of rate (x ++ y)) = Done bs ->
    (0 < bs)%Z ->
    length x = (k * Z.to_nat bs)%nat ->
    exists head tail tail',
      deNoise (length (x ++ y)) rate (x ++ y) = Some (Done (head ++ tail)) /\
      deNoise (length (x ++ y')) rate (x ++ y') = Some (Done (head ++ tail')) /\
      length head = (k * (2 * dwt_coeff_len (Z.to_nat bs)))%nat.
Proof.
  intros rate x y y' bs k Hy Hbs Hpos Hx.
  assert (0 < Z.to_nat bs)%nat as Hnat by lia.
  assert (BlockSize.blockSize_of (info_of rate (x ++ y')) = Done bs) as Hbs'.
  { unfold info_of in *. rewrite length_app in *. now rewrite <- Hy. }
  destruct (deNoise_blocks _ rate (x ++ y) bs Hbs Hpos (Nat.le_refl _))
    as (cl & HF & ->).
  destruct (deNoise_blocks _ rate (x ++ y') bs Hbs' Hpos (Nat.le_refl _))
    as (cl' & HF' & ->).
  rewrite (blocks_app _ x y k Hnat Hx) in HF.
  rewrite (blocks_app _ x y' k Hnat Hx) in HF'.
  apply Forall2_app_inv_l in HF. destruct HF as (h & t & Hh & Ht & ->).
  apply Forall2_app_inv_l in HF'. destruct HF' as (h' & t' & Hh' & Ht' & ->).
  assert (h' = h) as -> by (eapply processed_unique; eassumption).
  exists (concat h), (concat t), (concat t').
  rewrite !concat_app. split; [reflexivity|]. split; [reflexivity|].
  destruct (blocks_full _ x k Hnat Hx) as [Hcount Hall].
  rewrite (processed_uniform_length _ _ h Hnat Hall Hh). now rewrite Hcount.
Qed.

Lemma deNoise_head_independent_witness :
  length [5; 6; 7]%R = length [0; 0; 9]%R /\
  BlockSize.blockSize_of
    (info_of 30 (repeat 1%R 27 ++ [5; 6; 7]%R)) = Done 3%Z /\
  (0 < 3)%Z /\
  length (repeat 1%R 27) = (9 * Z.to_nat 3)%nat /\
  exists head tail tail',
    deNoise 30 30 (repeat 1%R 27 ++ [5; 6; 7]%R) = Some (Done (head ++ tail)) /\
    deNoise 30 30 (repeat 1%R 27 ++ [0; 0; 9]%R) = Some (Done (head ++ tail')) /\
    length head = 36%nat.
Proof.
  assert (length [5; 6; 7]%R = length [0; 0; 9]%R) as A1 by reflexivity.
  assert (BlockSize.blockSize_of
            (info_of 30 (repeat 1%R 27 ++ [5; 6; 7]%R)) = Done 3%Z) as A2
    by (vm_compute; reflexivity).
  assert (length (repeat 1%R 27) = (9 * Z.to_nat 3)%nat) as A3 by reflexivity.
  split; [exact A1|]. split; [exact A2|]. split; [lia|]. split; [exact A3|].
  exact (deNoise_head_independent 30 (repeat 1%R 27) [5; 6; 7]%R [0; 0; 9]%R
           3%Z 9%nat A1 A2 ltac:(lia) A3).
Defined.

End BlockIndependence.
